(** * nvBowtie, paired-end best-approx alignment driver

    A shallow embedding of [Aligner::best_approx] and
    [Aligner::best_approx_score] from
    [nvBowtie/bowtie2/cuda/aligner_best_approx_paired.h], and the properties
    of the driver proved on it.

    The host code is a sequential driver that launches device kernels and
    branches on a few counters it reads back.  The embedding keeps that
    shape: the driver is written in a small state-and-log monad, every kernel
    launch is an entry of the log together with the program state it was
    launched on, and the kernels themselves (declared in other headers) are
    the fields of an interface class.  Timers, statistics, debug output and
    the [persist_*] dumps have no influence on control flow and are left out.

    Conventions.  Counters and sizes are [uint32] in the source and [Z]
    here, with the wrap-around written where the source can overflow.  Read
    ids and positions in a queue are [nat].  A device vector is a list; the
    live part of a queue is the prefix its size counter delimits.  Line
    numbers refer to the header above.

    Layout.  Definitions come first: host arithmetic, the monad, the Thrust
    algorithms, then one module per part of the driver - [Scoring] for
    [best_approx_score], [Seeding] for the seeding passes of [best_approx],
    [Registry] for the best-alignment records, [Finishing] for traceback,
    finishing and output - and a small concrete kernel set, [Sample], to run
    the drivers on.  The properties follow, in the same order. *)

From stdpp Require Import base tactics option numbers list.

Local Open Scope Z_scope.

(** ** 32-bit unsigned host arithmetic *)

Module UInt32.

Definition modulus : Z := 2 ^ 32.

Definition wrap (z : Z) : Z := z mod modulus.

Definition add (a b : Z) : Z := wrap (a + b).

Definition sub (a b : Z) : Z := wrap (a - b).

(** Unsigned division; the driver only divides by a non-zero queue size. *)
Definition div (a b : Z) : Z := a `div` b.

End UInt32.

(** ** The driver monad: state passing with a launch log

    A computation reads and writes a state [S] and emits log entries, each
    one an event paired with the state the event was issued on. *)

Module Run.
Section run.
Context {S Ev : Type}.

Definition Log : Type := list (Ev * S).

Definition M (A : Type) : Type := S → A * S * Log.

Definition ret {A} (a : A) : M A := λ s, (a, s, []).

Definition bind {A B} (c : M A) (k : A → M B) : M B :=
  λ s, let '(a, s1, l1) := c s in
       let '(b, s2, l2) := k a s1 in
       (b, s2, l1 ++ l2).

Definition get : M S := λ s, (s, s, []).

(** A host-side assignment: no launch, nothing logged. *)
Definition modify (f : S → S) : M unit := λ s, (tt, f s, []).

(** A kernel launch or library call that transforms the state. *)
Definition call (e : Ev) (f : S → S) : M unit := λ s, (tt, f s, [(e, s)]).

(** A logged call that leaves the state alone. *)
Definition emit (e : Ev) : M unit := λ s, (tt, s, [(e, s)]).

(** A logged read-back of a device-side value. *)
Definition fetch {A} (e : Ev) (f : S → A) : M A := λ s, (f s, s, [(e, s)]).

Definition when (b : bool) (c : M unit) : M unit := if b then c else ret tt.

Definition result {A} (r : A * S * Log) : A := r.1.1.
Definition final {A} (r : A * S * Log) : S := r.1.2.
Definition log {A} (r : A * S * Log) : Log := r.2.
Definition outcome {A} (r : A * S * Log) : A * S := r.1.

(** A run with the entries [l] logged ahead of it. *)
Definition after {A} (l : Log) (r : A * S * Log) : A * S * Log :=
  (r.1.1, r.1.2, l ++ r.2).

(** A property of every log entry together with what is logged after it. *)
Fixpoint ForallRest (P : Ev * S → Log → Prop) (l : Log) : Prop :=
  match l with
  | [] => True
  | entry :: rest => P entry rest ∧ ForallRest P rest
  end.

End run.

Global Arguments ForallRest {S Ev} P l%_list.
Global Arguments M : clear implicits.
Global Arguments Log : clear implicits.
End Run.

Declare Scope run_scope.
Delimit Scope run_scope with run.
Notation "x <- c ;; k" := (Run.bind c (λ x, k))
  (at level 100, c at next level, right associativity) : run_scope.
Notation "c ;;; k" := (Run.bind c (λ _, k))
  (at level 100, right associativity) : run_scope.

(** ** Run configuration

    [Params] is declared in [params.h]; only the fields the driver reads are
    kept. All of them are [uint32]. *)

Record Params := {
  max_reseed : Z;
  max_ext : Z;
  max_dist : Z;
  top_seed : Z;
}.

(** ** The Thrust algorithms the driver calls

    Device vectors are lists; an algorithm that writes [n] items through an
    output iterator positioned at [begin()] replaces the first [n] cells and
    leaves the rest of the buffer as it was. *)

Module Thrust.

(** Writing [src] at the beginning of [buf]. *)
Definition copy {A} (src buf : list A) : list A := src ++ drop (length src) buf.

(** [thrust::fill(buf.begin(), buf.begin() + n, v)]. *)
Definition fill {A} (n : nat) (v : A) (buf : list A) : list A :=
  replicate n v ++ drop n buf.

(** [thrust::copy_if(counting(0), counting(0) + count, stencil, result, pred)]:
    the indices [i < count] whose stencil cell satisfies [pred], in increasing
    order. A stencil cell outside the stencil vector is never selected. *)
Definition selected {A} (stencil : nat → option A) (pred : A → bool) (i : nat) : bool :=
  from_option pred false (stencil i).

Definition copy_if {A} (count : nat) (stencil : nat → option A) (pred : A → bool)
    : list nat :=
  filter (λ i, selected stencil pred i) (seq 0 count).

End Thrust.

(** ** [Aligner::best_approx_score]: the extension and scoring loop *)

Module Scoring.

(** The fields of [BestApproxScoringPipelineState] that the host code
    assigns inside the loop; the struct is handed to every kernel by value. *)
Record Pipeline := {
  n_hits_per_read : Z;
  hits_queue_size : Z;
  idx_queue : list nat;
  opposite_queue_size : Z;
}.

(** Device memory reached by the loop. [X] stands for everything the host
    code never looks into: hit deques, the best-alignment registry, the
    per-read try counters, the hit index, the seed queues. *)
Record Device (X : Type) := {
  in_size : Z;                          (* active_read_queues.in_size *)
  in_queue : list Z;
  out_size : Z;
  out_queue : list Z;
  hits_loc : list Z;                    (* scoring_queues.hits.loc *)
  hits_score : list Z;                  (* scoring_queues.hits.score *)
  hits_opposite_score : list Z;         (* scoring_queues.hits.opposite_score *)
  hits_pool : Z;                        (* what hits_count() reads back *)
  opposite_queue_dvec : list nat;
  aux : X;
}.
Global Arguments in_size {X} _.
Global Arguments in_queue {X} _.
Global Arguments out_size {X} _.
Global Arguments out_queue {X} _.
Global Arguments hits_loc {X} _.
Global Arguments hits_score {X} _.
Global Arguments hits_opposite_score {X} _.
Global Arguments hits_pool {X} _.
Global Arguments opposite_queue_dvec {X} _.
Global Arguments aux {X} _.

(** Host locals of [best_approx_score] together with device memory. *)
Record State (X : Type) := {
  extension_pass : Z;
  n_ext : Z;
  pipeline : Pipeline;
  dev : Device X;
}.
Global Arguments extension_pass {X} _.
Global Arguments n_ext {X} _.
Global Arguments pipeline {X} _.
Global Arguments dev {X} _.

(** The kernels and helpers launched by the loop. They live in [select.h],
    [locate.h], [score.h], [reduce.h] and [utils.h]; the driver fixes only
    when they run and what they are given. *)
Class Kernels (X : Type) := {
  band_length : Z → Z;
  pack_read : Z → Z → Z;
  select_init : Pipeline → Params → Device X → Device X;
  hits_index_setup : Z → Z → X → X;
  select : Pipeline → Params → Device X → Device X;
  sort_hi_bits : Z → Device X → list nat;
  locate_init : Pipeline → Params → Device X → Device X;
  locate_lookup : Pipeline → Params → Device X → Device X;
  anchor_score_best : Z → Pipeline → Params → Device X → Device X;
  opposite_dp : Pipeline → Params → Device X → nat → Z;
  score_reduce_paired : Z → Pipeline → Params → Device X → Device X;
}.

Inductive Event :=
  | Resize | PackReads | SelectInit
  | ClearOutput | HitsIndexSetup | Select | Swap | HitsCount
  | LocateSort | LocateInit | LocateLookup | ScoreSort
  | AnchorScore | CompactOpposite | FillOppositeScore | OppositeScore
  | ScoreReduce.

Global Instance Event_eq_dec : EqDecision Event.
Proof. solve_decision. Defined.

Section driver.
Context {X : Type} `{!Kernels X}.

(** [BATCH_SIZE] is a constant of the [Aligner] class and [worst_score] a
    constant of the scoring scheme type; neither is defined in the header embedded here. *)
Variable BATCH_SIZE : Z.
Variable worst_score : Z.
Variable params : Params.

(** *** State updates *)

Definition on_dev (f : Device X → Device X) (s : State X) : State X :=
  {| extension_pass := extension_pass s; n_ext := n_ext s;
     pipeline := pipeline s; dev := f (dev s) |}.

Definition on_pipeline (f : Pipeline → Pipeline) (s : State X) : State X :=
  {| extension_pass := extension_pass s; n_ext := n_ext s;
     pipeline := f (pipeline s); dev := dev s |}.

Definition set_n_ext (v : Z) (s : State X) : State X :=
  {| extension_pass := extension_pass s; n_ext := v;
     pipeline := pipeline s; dev := dev s |}.

Definition set_extension_pass (v : Z) (s : State X) : State X :=
  {| extension_pass := v; n_ext := n_ext s;
     pipeline := pipeline s; dev := dev s |}.

Definition next_extension_pass (s : State X) : State X :=
  {| extension_pass := UInt32.add (extension_pass s) 1; n_ext := n_ext s;
     pipeline := pipeline s; dev := dev s |}.

Definition set_n_hits_per_read (v : Z) (p : Pipeline) : Pipeline :=
  {| n_hits_per_read := v; hits_queue_size := hits_queue_size p;
     idx_queue := idx_queue p; opposite_queue_size := opposite_queue_size p |}.

Definition set_hits_queue_size (v : Z) (p : Pipeline) : Pipeline :=
  {| n_hits_per_read := n_hits_per_read p; hits_queue_size := v;
     idx_queue := idx_queue p; opposite_queue_size := opposite_queue_size p |}.

Definition set_idx_queue (v : list nat) (p : Pipeline) : Pipeline :=
  {| n_hits_per_read := n_hits_per_read p; hits_queue_size := hits_queue_size p;
     idx_queue := v; opposite_queue_size := opposite_queue_size p |}.

Definition set_opposite_queue_size (v : Z) (p : Pipeline) : Pipeline :=
  {| n_hits_per_read := n_hits_per_read p; hits_queue_size := hits_queue_size p;
     idx_queue := idx_queue p; opposite_queue_size := v |}.

Definition set_aux (f : X → X) (d : Device X) : Device X :=
  {| in_size := in_size d; in_queue := in_queue d;
     out_size := out_size d; out_queue := out_queue d;
     hits_loc := hits_loc d; hits_score := hits_score d;
     hits_opposite_score := hits_opposite_score d; hits_pool := hits_pool d;
     opposite_queue_dvec := opposite_queue_dvec d; aux := f (aux d) |}.

Definition set_hits_opposite_score (v : list Z) (d : Device X) : Device X :=
  {| in_size := in_size d; in_queue := in_queue d;
     out_size := out_size d; out_queue := out_queue d;
     hits_loc := hits_loc d; hits_score := hits_score d;
     hits_opposite_score := v; hits_pool := hits_pool d;
     opposite_queue_dvec := opposite_queue_dvec d; aux := aux d |}.

Definition set_opposite_queue_dvec (v : list nat) (d : Device X) : Device X :=
  {| in_size := in_size d; in_queue := in_queue d;
     out_size := out_size d; out_queue := out_queue d;
     hits_loc := hits_loc d; hits_score := hits_score d;
     hits_opposite_score := hits_opposite_score d; hits_pool := hits_pool d;
     opposite_queue_dvec := v; aux := aux d |}.

(** *** The scoring queues

    The ping-pong active-read queues and the scoring-queue container come
    from [pingpong_queues.h] and [scoring_queues.h]. *)

(** Modelled from the spec: [active_read_queues.resize] of
    [pingpong_queues.h], a header outside the embedded source.
    The driver fills and reads exactly [seed_queue_size] input entries after
    the call: it fixes the number of live input entries. *)
Definition resize (n : Z) (d : Device X) : Device X :=
  {| in_size := n; in_queue := in_queue d;
     out_size := out_size d; out_queue := out_queue d;
     hits_loc := hits_loc d; hits_score := hits_score d;
     hits_opposite_score := hits_opposite_score d; hits_pool := hits_pool d;
     opposite_queue_dvec := opposite_queue_dvec d; aux := aux d |}.

(** Modelled from the spec: [scoring_queues.clear_output] of
    [scoring_queues.h], a header outside the embedded source.
    It "initialize[s] all the scoring output queues": the output counter of
    the active reads and the hit pool counter restart from zero. *)
Definition clear_output (d : Device X) : Device X :=
  {| in_size := in_size d; in_queue := in_queue d;
     out_size := 0; out_queue := out_queue d;
     hits_loc := hits_loc d; hits_score := hits_score d;
     hits_opposite_score := hits_opposite_score d; hits_pool := 0;
     opposite_queue_dvec := opposite_queue_dvec d; aux := aux d |}.

(** Modelled from the spec: [active_read_queues.swap] of
    [pingpong_queues.h], a header outside the embedded source. The
    spec describes two index buffers whose roles are exchanged, "a
    pointer/role exchange, not a copy"; the input size after the swap is the
    size the producers left in the output counter. *)
Definition swap (d : Device X) : Device X :=
  {| in_size := out_size d; in_queue := out_queue d;
     out_size := out_size d; out_queue := in_queue d;
     hits_loc := hits_loc d; hits_score := hits_score d;
     hits_opposite_score := hits_opposite_score d; hits_pool := hits_pool d;
     opposite_queue_dvec := opposite_queue_dvec d; aux := aux d |}.

(** Modelled from the spec: [scoring_queues.hits_count] of
    [scoring_queues.h], a header outside the embedded source: the
    read-back of the device-side count of selected hits, the "selected
    count" that is "only valid post-completion" of the selection. *)
Definition hits_count (d : Device X) : Z := hits_pool d.

(** [thrust::transform] of the seed queue through [pack_read(top_seed)]
    into the input queue. *)
Definition pack_reads (seed_queue_size : Z) (seed_queue : list Z) (d : Device X)
    : Device X :=
  {| in_size := in_size d;
     in_queue :=
       Thrust.copy (pack_read (top_seed params) <$> take (Z.to_nat seed_queue_size) seed_queue)
                   (in_queue d);
     out_size := out_size d; out_queue := out_queue d;
     hits_loc := hits_loc d; hits_score := hits_score d;
     hits_opposite_score := hits_opposite_score d; hits_pool := hits_pool d;
     opposite_queue_dvec := opposite_queue_dvec d; aux := aux d |}.

(** *** Compaction of the opposite-mate candidates (lines 889-896)

    The stencil is the score queue gathered through [idx_queue]; the
    predicate is "differs from [worst_score]"; the result holds positions
    of [idx_queue]. *)
Definition gathered_score (p : Pipeline) (d : Device X) (i : nat) : option Z :=
  idx_queue p !! i ≫= λ h, hits_score d !! h.

Definition not_worst (v : Z) : bool := negb (v =? worst_score).

Definition opposite_candidates (p : Pipeline) (d : Device X) : list nat :=
  Thrust.copy_if (Z.to_nat (hits_queue_size p)) (gathered_score p d) not_worst.

Definition compact_opposite (s : State X) : State X :=
  let c := opposite_candidates (pipeline s) (dev s) in
  on_pipeline (set_opposite_queue_size (Z.of_nat (length c)))
    (on_dev (set_opposite_queue_dvec (Thrust.copy c (opposite_queue_dvec (dev s)))) s).

(** Lines 898-902. *)
Definition fill_opposite_score (s : State X) : State X :=
  on_dev (λ d, set_hits_opposite_score
                 (Thrust.fill (Z.to_nat (hits_queue_size (pipeline s))) worst_score
                              (hits_opposite_score d)) d) s.

(** Modelled from the spec: the hits [opposite_score_best] works on. The
    kernel is in [score.h], outside the embedded source; the note at lines
    884-887 gives the addressing: work item [t] handles hit
    [idx_queue[opposite_queue[t]]]. *)
Definition opposite_targets (p : Pipeline) (d : Device X) : list nat :=
  omap (λ t, idx_queue p !! t)
       (take (Z.to_nat (opposite_queue_size p)) (opposite_queue_dvec d)).

(** Modelled from the spec: [opposite_score_best] ([score.h], outside the
    embedded source) "writes one opposite score per compacted entry only; untouched
    entries retain the sentinel pre-fill". The score it computes is the
    interface function [opposite_dp]. *)
Definition opposite_score_best (p : Pipeline) (d : Device X) : Device X :=
  set_hits_opposite_score
    (foldl (λ buf h, <[h := opposite_dp p params d h]> buf)
           (hits_opposite_score d) (opposite_targets p d)) d.

(** *** One extension round (the body of the loop, lines 695-958)

    The result is [true] when the round leaves the loop through [break].
    Both [continue] and falling off the end of the body return [false].
    Re-assigning [pipeline.scoring_queues = scoring_queues.device_view()]
    only refreshes raw pointers after the queues changed roles; kernels
    here receive the device memory itself. *)
Local Open Scope run_scope.

Definition extension_round : Run.M (State X) Event bool :=
  (* initialize all the scoring output queues *)
  Run.call ClearOutput (on_dev clear_output) ;;;
  (* keep track of how many hits per read we are generating *)
  Run.modify (on_pipeline (set_n_hits_per_read 1)) ;;;
  s <- Run.get ;;
  Run.when (bool_decide (in_size (dev s) ≤ UInt32.div BATCH_SIZE 2))
    (let max_ext := Z.min 4096 (UInt32.sub (max_ext params) (n_ext s)) in
     Run.modify (on_pipeline (set_n_hits_per_read
       (Z.min (UInt32.div BATCH_SIZE (in_size (dev s))) max_ext)))) ;;;
  (* setup the hits queue *)
  Run.call HitsIndexSetup
    (λ s, on_dev (set_aux (hits_index_setup (n_hits_per_read (pipeline s))
                                            (in_size (dev s)))) s) ;;;
  Run.call Select (λ s, on_dev (select (pipeline s) params) s) ;;;
  (* swap input & output queues *)
  Run.call Swap (on_dev swap) ;;;
  (* fetch the new queue size *)
  s <- Run.get ;;
  if bool_decide (in_size (dev s) = 0) then Run.ret true else
  (* fetch the output queue size *)
  n <- (if bool_decide (1 < n_hits_per_read (pipeline s))
        then Run.fetch HitsCount (λ s, hits_count (dev s))
        else Run.ret (in_size (dev s))) ;;
  Run.modify (on_pipeline (set_hits_queue_size n)) ;;;
  if bool_decide (n = 0) then Run.ret false else
  (* sort the selected hits by their SA coordinate *)
  idx <- Run.fetch LocateSort (λ s, sort_hi_bits (hits_queue_size (pipeline s)) (dev s)) ;;
  Run.modify (on_pipeline (set_idx_queue idx)) ;;;
  Run.call LocateInit (λ s, on_dev (locate_init (pipeline s) params) s) ;;;
  Run.call LocateLookup (λ s, on_dev (locate_lookup (pipeline s) params) s) ;;;
  (* sort the selected hits by their linear genome coordinate *)
  idx <- Run.fetch ScoreSort (λ s, sort_hi_bits (hits_queue_size (pipeline s)) (dev s)) ;;
  Run.modify (on_pipeline (set_idx_queue idx)) ;;;
  (* assign a score to all selected hits *)
  Run.call AnchorScore
    (λ s, on_dev (anchor_score_best (band_length (max_dist params)) (pipeline s) params) s) ;;;
  (* compact the list of candidate hits *)
  Run.call CompactOpposite compact_opposite ;;;
  (* make sure the reducer sees correct scores *)
  Run.call FillOppositeScore fill_opposite_score ;;;
  s <- Run.get ;;
  Run.when (negb (bool_decide (opposite_queue_size (pipeline s) = 0)))
    (Run.call OppositeScore (λ s, on_dev (opposite_score_best (pipeline s)) s)) ;;;
  (* reduce the multiple scores to find the best two alignments *)
  Run.call ScoreReduce
    (λ s, on_dev (score_reduce_paired (n_ext s) (pipeline s) params) s) ;;;
  (* keep track of the number of extensions performed *)
  Run.modify (λ s, set_n_ext (UInt32.add (n_ext s) (n_hits_per_read (pipeline s))) s) ;;;
  Run.ret false.

(** *** The loop [for (extension_pass = 0; active_read_queues.in_size; ++extension_pass)]

    The kernels decide how the queue evolves, so nothing in the host code
    bounds the number of rounds; [fuel] does. The result is [true] when the
    loop was left (by its test or by [break]) and [false] when the fuel ran
    out with reads still queued. *)
Fixpoint extension_loop (fuel : nat) : Run.M (State X) Event bool :=
  λ s,
    if bool_decide (in_size (dev s) = 0) then Run.ret true s
    else match fuel with
         | O => Run.ret false s
         | S fuel' =>
             (stop <- extension_round ;;
              if (stop : bool) then Run.ret true
              else (Run.modify next_extension_pass ;;; extension_loop fuel')) s
         end.

(** *** [best_approx_score] (lines 652-691, then the loop) *)
Definition initial_pipeline : Pipeline :=
  {| n_hits_per_read := 0; hits_queue_size := 0; idx_queue := [];
     opposite_queue_size := 0 |}.

Definition enter (d : Device X) : State X :=
  {| extension_pass := 0; n_ext := 0; pipeline := initial_pipeline; dev := d |}.

Definition best_approx_score (fuel : nat) (seed_queue_size : Z) (seed_queue : list Z)
    : Run.M (State X) Event bool :=
  Run.call Resize (on_dev (resize seed_queue_size)) ;;;
  Run.call PackReads (on_dev (pack_reads seed_queue_size seed_queue)) ;;;
  (* keep track of the number of extensions performed *)
  Run.modify (set_n_ext 0) ;;;
  Run.call SelectInit (λ s, on_dev (select_init (pipeline s) params) s) ;;;
  Run.modify (set_extension_pass 0) ;;;
  extension_loop fuel.
End driver.

(** *** Reading a log *)

(** The three ways through the body of the loop: out at the [break], back
    to the loop test at the [continue], or down to the reduction. The hit
    counter is read back on the way or not, and the opposite mates are
    scored or not. *)
Inductive Round :=
  | Break
  | Skip
  | Scored (count_read opposite : bool).

(** The launches of a round, in the order of the statements of the body. *)
Definition round_launches (r : Round) : list Event :=
  match r with
  | Break => [ClearOutput; HitsIndexSetup; Select; Swap]
  | Skip => [ClearOutput; HitsIndexSetup; Select; Swap; HitsCount]
  | Scored count_read opposite =>
      [ClearOutput; HitsIndexSetup; Select; Swap]
      ++ (if count_read then [HitsCount] else [])
      ++ [LocateSort; LocateInit; LocateLookup; ScoreSort; AnchorScore;
          CompactOpposite; FillOppositeScore]
      ++ (if opposite then [OppositeScore] else [])
      ++ [ScoreReduce]
  end.

(** The number of work items a launch of the loop is sized with: the
    active reads for the selection, the selected hits for the locate, score
    and reduce stages, the compacted candidates for the opposite scoring. *)
Definition work_size {X} (entry : Event * State X) : option Z :=
  match entry.1 with
  | HitsIndexSetup | Select => Some (in_size (dev entry.2))
  | LocateSort | LocateInit | LocateLookup | ScoreSort | AnchorScore
  | CompactOpposite | FillOppositeScore | ScoreReduce =>
      Some (hits_queue_size (pipeline entry.2))
  | OppositeScore => Some (opposite_queue_size (pipeline entry.2))
  | _ => None
  end.

(** The hits per read of the rounds that reached the reduction, in order. *)
Definition extended_by {X} (entry : Event * State X) : option Z :=
  match entry.1 with
  | ScoreReduce => Some (n_hits_per_read (pipeline entry.2))
  | _ => None
  end.

Definition extended {X} (l : Run.Log (State X) Event) : list Z :=
  omap extended_by l.

Global Arguments extended {X} l%_list.
End Scoring.

(** ** The seeding passes of [Aligner::best_approx] (lines 88-190) *)

Module Seeding.

(** [seed_queues]: a ping-pong pair of read-index queues. The live part of a
    queue is its first [size] cells. *)
Record SeedQueues := {
  in_size : Z;
  in_queue : list nat;
  out_size : Z;
  out_queue : list nat;
}.

Inductive Event :=
  | StartFull (anchor : Z)
  | ClearOutput
  | ClearDeques
  | Map (anchor seeding_pass : Z)
  | Score (anchor seeding_pass : Z)
  | Swap.

Definition active_reads (q : SeedQueues) : list nat :=
  take (Z.to_nat (in_size q)) (in_queue q).

(** Lines 92-98: start with a full seed queue. *)
Definition start_full (count : Z) (q : SeedQueues) : SeedQueues :=
  {| in_size := count;
     in_queue := Thrust.copy (seq 0 (Z.to_nat count)) (in_queue q);
     out_size := out_size q; out_queue := out_queue q |}.

(** Modelled from the spec: [seed_queues.clear_output]; the ping-pong queue
    of [pingpong_queues.h] is outside the embedded source. The pass
    "initialize[s] [the] output seeding queue size": the output queue
    restarts empty. *)
Definition clear_output (q : SeedQueues) : SeedQueues :=
  {| in_size := in_size q; in_queue := in_queue q;
     out_size := 0; out_queue := out_queue q |}.

(** Modelled from the spec: [seed_queues.swap] of [pingpong_queues.h],
    outside the embedded source: "a pointer/role exchange, not a copy" of
    the two buffers, the new input size being the size reached by the output
    queue. *)
Definition swap (q : SeedQueues) : SeedQueues :=
  {| in_size := out_size q; in_queue := out_queue q;
     out_size := out_size q; out_queue := in_queue q |}.

(** Modelled from the spec: a kernel pushing reads onto the seed output
    queue; the kernels that do so are in [select.h] and [reduce.h], outside
    the embedded source. The reads are appended after the live part of the
    queue. *)
Definition push_all (r : list nat) (q : SeedQueues) : SeedQueues :=
  let n := Z.to_nat (out_size q) in
  {| in_size := in_size q; in_queue := in_queue q;
     out_size := out_size q + Z.of_nat (length r);
     out_queue := take n (out_queue q) ++ r ++ drop (n + length r) (out_queue q) |}.

(** Modelled from the spec: what [best_approx_score] leaves in the seed
    output queue; its kernels are outside the embedded source. The spec says
    the pipeline reports "a subset of the input - reads whose search+extension
    did not yet satisfy stopping criteria". The criterion itself is the
    parameter [needs_reseed]. *)
Definition report_reseed (needs_reseed : nat → bool) (q : SeedQueues) : SeedQueues :=
  push_all (filter (λ r, needs_reseed r) (active_reads q)) q.

Section passes.
Variable params : Params.
Variable needs_reseed : Z → Z → nat → bool.

Local Open Scope run_scope.

(** The body of the seeding loop after its emptiness test. The hit deques
    are storage of their own: [hit_deques.clear_deques()] resets them and
    the mapping kernel fills them, and both leave the seed queues alone.
    [hit_deques.device_view()] only builds the pointers handed to [map]. *)
Definition seeding_pass_body (anchor seeding_pass : Z) : Run.M SeedQueues Event unit :=
  (* initialize output seeding queue size *)
  Run.call ClearOutput clear_output ;;;
  (* initialize the seed hit counts *)
  Run.emit ClearDeques ;;;
  (* perform mapping *)
  Run.emit (Map anchor seeding_pass) ;;;
  Run.call (Score anchor seeding_pass) (report_reseed (needs_reseed anchor seeding_pass)) ;;;
  (* swap input & output queues *)
  Run.call Swap swap.

(** [for (seeding_pass = 0; seeding_pass < params.max_reseed+1; ++seeding_pass)],
    by recursion on the passes that remain. *)
Fixpoint seeding_passes (remaining : nat) (anchor seeding_pass : Z)
    : Run.M SeedQueues Event unit :=
  match remaining with
  | O => Run.ret tt
  | S remaining' =>
      λ q, (* check whether the input queue is empty *)
        if bool_decide (in_size q = 0) then Run.ret tt q
        else (seeding_pass_body anchor seeding_pass ;;;
              seeding_passes remaining' anchor (seeding_pass + 1)) q
  end.

Definition seed_anchor (count anchor : Z) : Run.M SeedQueues Event unit :=
  Run.call (StartFull anchor) (start_full count) ;;;
  seeding_passes (Z.to_nat (UInt32.add (max_reseed params) 1)) anchor 0.

(** [for (anchor = 0; anchor < 2; ++anchor)]. *)
Definition seed_and_extend (count : Z) : Run.M SeedQueues Event unit :=
  seed_anchor count 0 ;;; seed_anchor count 1.
End passes.

(** The reads each pass of a run worked on, in pass order. *)
Definition pass_queue (entry : Event * SeedQueues) : option (list nat) :=
  match entry.1 with
  | Map _ _ => Some (active_reads entry.2)
  | _ => None
  end.

Definition pass_queues (l : Run.Log SeedQueues Event) : list (list nat) :=
  omap pass_queue l.

(** The same for the passes of one anchor. *)
Definition anchor_pass_queue (a : Z) (entry : Event * SeedQueues) : option (list nat) :=
  match entry.1 with
  | Map anchor _ => if anchor =? a then Some (active_reads entry.2) else None
  | _ => None
  end.

Definition anchor_pass_queues (a : Z) (l : Run.Log SeedQueues Event) : list (list nat) :=
  omap (anchor_pass_queue a) l.

(** The pass numbers the mapping kernel is launched with, in order. *)
Definition pass_number (entry : Event * SeedQueues) : option Z :=
  match entry.1 with
  | Map _ seeding_pass => Some seeding_pass
  | _ => None
  end.

Definition pass_numbers (l : Run.Log SeedQueues Event) : list Z :=
  omap pass_number l.

(** The launches of one seeding pass, in the order of the loop body, and
    those of an anchor whose loop makes [passes] passes. *)
Definition pass_launches (anchor seeding_pass : Z) : list Event :=
  [ClearOutput; ClearDeques; Map anchor seeding_pass; Score anchor seeding_pass;
   Swap].

Definition anchor_launches (anchor : Z) (passes : nat) : list Event :=
  StartFull anchor :: (seqZ 0 (Z.of_nat passes) ≫= pass_launches anchor).

(** The number of live reads a mapping or scoring launch is given. *)
Definition pass_size (entry : Event * SeedQueues) : option Z :=
  match entry.1 with
  | Map _ _ | Score _ _ => Some (in_size entry.2)
  | _ => None
  end.

End Seeding.

(** ** The best-alignment registry and its predicates *)

Module Registry.

(** Modelled from the spec: the pairing outcome of an alignment slot;
    [io::Alignment] is declared in [output_types.h], outside the embedded
    source. Each
    slot holds "pairing-outcome flags (paired / unpaired / unaligned)", an
    empty slot being "a distinct no-alignment state". *)
Inductive Pairing := Unaligned | Paired | Unpaired.

(** Modelled from the spec: [io::Alignment], a slot "holding a score, a
    genome location, and pairing-outcome flags". *)
Record Alignment := {
  score : Z;
  location : Z;
  pairing : Pairing;
}.

(** Modelled from the spec: [io::BestAlignments] ([output_types.h], outside
    the embedded source), "two ranked slots (best, second-best)" per read. *)
Record BestAlignments := {
  best : Alignment;
  second : Alignment;
}.

(** Modelled from the spec: a slot is paired when its alignment is
    "genuinely paired with the anchor's". *)
Definition paired (a : Alignment) : bool :=
  match pairing a with Paired => true | _ => false end.

(** Modelled from the spec: a slot is unpaired when its mate "aligned
    independently (not satisfying pairing constraints)". *)
Definition unpaired (a : Alignment) : bool :=
  match pairing a with Unpaired => true | _ => false end.

(** Modelled from the spec: a slot is aligned when it holds "any alignment
    at all (paired or unpaired)". *)
Definition aligned (a : Alignment) : bool :=
  match pairing a with Unaligned => false | _ => true end.

(** Modelled from the spec: the functor [io::is_paired] of
    [output_types.h], on the best slot. *)
Definition is_paired (b : BestAlignments) : bool := paired (best b).

(** Modelled from the spec: [io::is_unpaired], on the best slot. *)
Definition is_unpaired (b : BestAlignments) : bool := unpaired (best b).

(** Modelled from the spec: [io::is_aligned], on the best slot. *)
Definition is_aligned (b : BestAlignments) : bool := aligned (best b).

(** Modelled from the spec: [io::has_second], "a second-best alignment
    exists". *)
Definition has_second (b : BestAlignments) : bool := aligned (second b).

(** Modelled from the spec: [io::has_second_paired], "the same pairing
    split, but for the second-best rank". *)
Definition has_second_paired (b : BestAlignments) : bool := paired (second b).

(** Modelled from the spec: [io::has_second_unpaired], "the same pairing
    split, but for the second-best rank". *)
Definition has_second_unpaired (b : BestAlignments) : bool := unpaired (second b).

End Registry.

(** ** Traceback, finishing and output of [Aligner::best_approx] (lines 198-595) *)

Module Finishing.
Import Registry.

(** [io::MATE_1], [io::MATE_2] and the two score ranks of the output sink. *)
Inductive MateType := MATE_1 | MATE_2.
Inductive ScoreType := BEST_SCORE | SECOND_BEST_SCORE.

(** Which registry a kernel or an output batch is pointed at:
    [best_data_dvec] (the anchor side) or [best_data_dvec_o]. *)
Inductive Target := Anchor | Opposite.

(** The predicate functors handed to [thrust::copy_if]. *)
Inductive Predicate :=
  | IsPaired | IsUnpaired | IsAligned
  | HasSecond | HasSecondPaired | HasSecondUnpaired.

Definition holds (p : Predicate) : BestAlignments → bool :=
  match p with
  | IsPaired => is_paired
  | IsUnpaired => is_unpaired
  | IsAligned => is_aligned
  | HasSecond => has_second
  | HasSecondPaired => has_second_paired
  | HasSecondUnpaired => has_second_unpaired
  end.

(** The members of [Aligner] this part reads and writes. [T] is the type of
    one stored transcript. *)
Record Mem (T : Type) := {
  best_data_dvec : list BestAlignments;
  best_data_dvec_o : list BestAlignments;
  cigar : list T;
  mds : list T;
  loc : list nat;                       (* scoring_queues.hits.loc *)
  batch_number : Z;
}.
Global Arguments best_data_dvec {T} _.
Global Arguments best_data_dvec_o {T} _.
Global Arguments cigar {T} _.
Global Arguments mds {T} _.
Global Arguments loc {T} _.
Global Arguments batch_number {T} _.

Inductive Event :=
  | ClearTranscripts
  | CopyIf (p : Predicate) (data : Target)
  | BandedTraceback (aln : nat) (n : Z) (idx : option (list nat)) (data : Target)
  | OppositeTraceback (aln : nat) (n : Z) (idx : option (list nat)) (data : Target)
  | FinishAlignment (aln : nat) (n : Z) (idx : option (list nat)) (data : Target)
  | FinishOppositeAlignment (aln : nat) (n : Z) (idx : option (list nat)) (data : Target)
  | Process (data : Target) (mate : MateType) (rank : ScoreType).

(** The kernels of [traceback.h]. The first argument is the template
    parameter [ALN_IDX]; [idx] is [None] for a [NULL] index pointer. Only
    [opposite_traceback_best] takes no band length: it is the full-matrix
    backtracking, the other three work inside the band. *)
Class Kernels (T : Type) := {
  band_length : Z → Z;
  banded_traceback_best :
    nat → Z → option (list nat) → Target → Z → Params → Mem T → Mem T;
  opposite_traceback_best :
    nat → Z → option (list nat) → Target → Params → Mem T → Mem T;
  finish_alignment_best :
    nat → Z → option (list nat) → Target → Z → Params → Mem T → Mem T;
  finish_opposite_alignment_best :
    nat → Z → option (list nat) → Target → Z → Params → Mem T → Mem T;
}.

Section driver.
Context {T : Type} `{!Kernels T}.
Variable params : Params.

Definition registry (data : Target) (m : Mem T) : list BestAlignments :=
  match data with
  | Anchor => best_data_dvec m
  | Opposite => best_data_dvec_o m
  end.

(** [cigar.clear(); mds.clear();] *)
Definition clear_transcripts (m : Mem T) : Mem T :=
  {| best_data_dvec := best_data_dvec m; best_data_dvec_o := best_data_dvec_o m;
     cigar := []; mds := []; loc := loc m; batch_number := batch_number m |}.

Definition set_loc (v : list nat) (m : Mem T) : Mem T :=
  {| best_data_dvec := best_data_dvec m; best_data_dvec_o := best_data_dvec_o m;
     cigar := cigar m; mds := mds m; loc := v; batch_number := batch_number m |}.

Definition next_batch (m : Mem T) : Mem T :=
  {| best_data_dvec := best_data_dvec m; best_data_dvec_o := best_data_dvec_o m;
     cigar := cigar m; mds := mds m; loc := loc m;
     batch_number := UInt32.add (batch_number m) 1 |}.

(** The indices [copy_if] selects from [0, count) against a registry. *)
Definition compaction (p : Predicate) (data : Target) (count : Z) (m : Mem T) : list nat :=
  Thrust.copy_if (Z.to_nat count) (λ i, registry data m !! i) (holds p).

(** One [thrust::copy_if] of the driver: the selected indices overlap the
    [loc] queue from its beginning, and their number is returned. *)
Definition copy_if (p : Predicate) (data : Target) (count : Z) : Run.M (Mem T) Event Z :=
  λ m, let r := compaction p data count m in
       (Z.of_nat (length r), set_loc (Thrust.copy r (loc m)) m, [(CopyIf p data, m)]).

(** The index list a kernel reads through the raw pointer into [loc]. *)
Definition idx_view (n : Z) (m : Mem T) : option (list nat) :=
  Some (take (Z.to_nat n) (loc m)).

Local Open Scope run_scope.

(** Lines 215-271: the best alignments of the anchor mates. *)
Definition finish_best_anchor (count band_len : Z) : Run.M (Mem T) Event unit :=
  (* initialize cigars & MDS *)
  Run.call ClearTranscripts clear_transcripts ;;;
  Run.call (BandedTraceback 0 count None Anchor)
           (banded_traceback_best 0 count None Anchor band_len params) ;;;
  Run.call (FinishAlignment 0 count None Anchor)
           (finish_alignment_best 0 count None Anchor band_len params) ;;;
  (* wrap the results in a GPUOutputBatch and process it *)
  Run.emit (Process Anchor MATE_1 BEST_SCORE).

(** Lines 276-397: the opposite mates of the best alignments. *)
Definition finish_best_opposite (count band_len : Z) : Run.M (Mem T) Event unit :=
  (* initialize cigars & MDS *)
  Run.call ClearTranscripts clear_transcripts ;;;
  (* compact the indices of the best paired alignments *)
  n_paired <- copy_if IsPaired Opposite count ;;
  m <- Run.get ;;
  Run.when (negb (bool_decide (n_paired = 0)))
    (Run.call (OppositeTraceback 0 n_paired (idx_view n_paired m) Opposite)
              (opposite_traceback_best 0 n_paired (idx_view n_paired m) Opposite params)) ;;;
  (* compact the indices of the best unpaired alignments *)
  n_unpaired <- copy_if IsUnpaired Opposite count ;;
  m <- Run.get ;;
  Run.when (negb (bool_decide (n_unpaired = 0)))
    (Run.call (BandedTraceback 0 n_unpaired (idx_view n_unpaired m) Opposite)
              (banded_traceback_best 0 n_unpaired (idx_view n_unpaired m) Opposite
                                     band_len params)) ;;;
  n_aligned <- copy_if IsAligned Opposite count ;;
  m <- Run.get ;;
  Run.when (negb (bool_decide (n_aligned = 0)))
    (Run.call (FinishOppositeAlignment 0 n_aligned (idx_view n_aligned m) Opposite)
              (finish_opposite_alignment_best 0 n_aligned (idx_view n_aligned m) Opposite
                                              band_len params)) ;;;
  (* wrap the results in a GPUOutputBatch and process it *)
  Run.emit (Process Opposite MATE_2 BEST_SCORE).

(** Lines 399-473: the second-best alignments of the anchor mates. *)
Definition finish_second_anchor (count band_len : Z) : Run.M (Mem T) Event unit :=
  (* compact the indices of the second-best alignments *)
  n_second <- copy_if HasSecond Anchor count ;;
  m <- Run.get ;;
  Run.when (negb (bool_decide (n_second = 0)))
    ((* initialize cigars & MDS *)
     Run.call ClearTranscripts clear_transcripts ;;;
     Run.call (BandedTraceback 1 n_second (idx_view n_second m) Anchor)
              (banded_traceback_best 1 n_second (idx_view n_second m) Anchor
                                     band_len params) ;;;
     Run.call (FinishAlignment 1 n_second (idx_view n_second m) Anchor)
              (finish_alignment_best 1 n_second (idx_view n_second m) Anchor
                                     band_len params)) ;;;
  (* wrap the results in a GPUOutputBatch and process it *)
  Run.emit (Process Anchor MATE_1 SECOND_BEST_SCORE).

(** Lines 478-591: the opposite mates of the second-best alignments. *)
Definition finish_second_opposite (count band_len : Z) : Run.M (Mem T) Event unit :=
  (* initialize cigars & MDS pools *)
  Run.call ClearTranscripts clear_transcripts ;;;
  (* compact the indices of the second-best paired alignments *)
  n_second_paired <- copy_if HasSecondPaired Opposite count ;;
  m <- Run.get ;;
  Run.when (negb (bool_decide (n_second_paired = 0)))
    (Run.call (OppositeTraceback 1 n_second_paired (idx_view n_second_paired m) Opposite)
              (opposite_traceback_best 1 n_second_paired (idx_view n_second_paired m)
                                       Opposite params)) ;;;
  (* compact the indices of the second-best unpaired alignments *)
  n_second_unpaired <- copy_if HasSecondUnpaired Opposite count ;;
  m <- Run.get ;;
  Run.when (negb (bool_decide (n_second_unpaired = 0)))
    (Run.call (BandedTraceback 1 n_second_unpaired (idx_view n_second_unpaired m) Opposite)
              (banded_traceback_best 1 n_second_unpaired (idx_view n_second_unpaired m)
                                     Opposite band_len params)) ;;;
  (* compact the indices of the second-best alignments *)
  n_second <- copy_if HasSecond Opposite count ;;
  m <- Run.get ;;
  Run.when (negb (bool_decide (n_second = 0)))
    (Run.call (FinishOppositeAlignment 1 n_second (idx_view n_second m) Opposite)
              (finish_opposite_alignment_best 1 n_second (idx_view n_second m) Opposite
                                              band_len params)) ;;;
  (* wrap the results in a GPUOutputBatch and process it *)
  Run.emit (Process Opposite MATE_2 SECOND_BEST_SCORE).

(** The second half of [best_approx], from line 198 to the end. *)
Definition finish_batch (count : Z) : Run.M (Mem T) Event unit :=
  let band_len := band_length (max_dist params) in
  finish_best_anchor count band_len ;;;
  finish_best_opposite count band_len ;;;
  finish_second_anchor count band_len ;;;
  finish_second_opposite count band_len ;;;
  (* increase the batch number *)
  Run.modify next_batch.
End driver.

(** *** Reading a log *)

Definition process_call (e : Event) : option (MateType * ScoreType) :=
  match e with
  | Process _ mate rank => Some (mate, rank)
  | _ => None
  end.

(** The calls of the output sink, in order. *)
Definition process_calls {T} (l : Run.Log (Mem T) Event) : list (MateType * ScoreType) :=
  omap (λ entry, process_call entry.1) l.

Global Arguments process_calls {T} l%_list.

(** The transcripts the sink is handed with each call. *)
Definition process_batch {T} (entry : Event * Mem T)
    : option (MateType * ScoreType * list T * list T) :=
  match entry.1 with
  | Process _ mate rank => Some (mate, rank, cigar entry.2, mds entry.2)
  | _ => None
  end.

Definition emitted_batches {T} (l : Run.Log (Mem T) Event)
    : list (MateType * ScoreType * list T * list T) :=
  omap process_batch l.

(** The launches that backtrack alignments. *)
Definition is_traceback (e : Event) : bool :=
  match e with
  | BandedTraceback _ _ _ _ | OppositeTraceback _ _ _ _ => true
  | _ => false
  end.

(** The backtracking the specification asks for on a compacted subset
    [idx]: "banded (bounded-width) backtracking for anchor alignments and
    unpaired opposite alignments; full (unbounded) backtracking for paired
    opposite alignments", for either rank. The subsets compacted for the
    finishing kernels ([IsAligned], and [HasSecond] on the opposite side)
    are not backtracked. *)
Definition spec_traceback (p : Predicate) (data : Target) (idx : list nat)
    : option Event :=
  let n := Z.of_nat (length idx) in
  match p, data with
  | IsPaired, Opposite => Some (OppositeTraceback 0 n (Some idx) Opposite)
  | IsUnpaired, Opposite => Some (BandedTraceback 0 n (Some idx) Opposite)
  | HasSecond, Anchor => Some (BandedTraceback 1 n (Some idx) Anchor)
  | HasSecondPaired, Opposite => Some (OppositeTraceback 1 n (Some idx) Opposite)
  | HasSecondUnpaired, Opposite => Some (BandedTraceback 1 n (Some idx) Opposite)
  | _, _ => None
  end.

(** The rank and the registry a launch works on: the [ALN_IDX] and the
    registry pointer of a kernel, the registry a compaction reads with the
    rank its predicate looks at, the registry and the rank an output batch
    is made of. *)
Definition predicate_rank (p : Predicate) : nat :=
  match p with
  | IsPaired | IsUnpaired | IsAligned => 0
  | HasSecond | HasSecondPaired | HasSecondUnpaired => 1
  end.

Definition rank_index (rank : ScoreType) : nat :=
  match rank with
  | BEST_SCORE => 0
  | SECOND_BEST_SCORE => 1
  end.

Definition launch_target (e : Event) : option (nat * Target) :=
  match e with
  | ClearTranscripts => None
  | CopyIf p data => Some (predicate_rank p, data)
  | BandedTraceback aln _ _ data | OppositeTraceback aln _ _ data
  | FinishAlignment aln _ _ data | FinishOppositeAlignment aln _ _ data =>
      Some (aln, data)
  | Process data _ rank => Some (rank_index rank, data)
  end.

(** The launches that finish alignments, and the launch the driver makes
    for the subset [idx] compacted with [p] from the registry [data]. *)
Definition is_finish (e : Event) : bool :=
  match e with
  | FinishAlignment _ _ _ _ | FinishOppositeAlignment _ _ _ _ => true
  | _ => false
  end.

Definition finish_launch (p : Predicate) (data : Target) (idx : list nat)
    : option Event :=
  let n := Z.of_nat (length idx) in
  match p, data with
  | HasSecond, Anchor => Some (FinishAlignment 1 n (Some idx) Anchor)
  | IsAligned, Opposite => Some (FinishOppositeAlignment 0 n (Some idx) Opposite)
  | HasSecond, Opposite => Some (FinishOppositeAlignment 1 n (Some idx) Opposite)
  | _, _ => None
  end.

(** The index list of a launch that works on a compacted subset. *)
Definition compacted_subset (e : Event) : option (list nat) :=
  match e with
  | BandedTraceback _ _ idx _ | OppositeTraceback _ _ idx _
  | FinishAlignment _ _ idx _ | FinishOppositeAlignment _ _ idx _ => idx
  | _ => None
  end.

End Finishing.

(** ** A small concrete kernel set

    Kernels simple enough to run the drivers on by evaluation: every round
    the selection drops the read at the head of the active queue and emits
    [n_hits_per_read] hits for each read it keeps; hits at even positions of
    the hit queue get the anchor score 5, the others cannot be scored and get
    the worst score; every opposite mate scores 9. Nothing else is stored
    ([X] is [unit]). *)

Module Sample.
Import Scoring.

Definition worst_score : Z := -1000.

Definition select (p : Pipeline) (_ : Params) (d : Device unit) : Device unit :=
  let kept := tail (take (Z.to_nat (in_size d)) (in_queue d)) in
  {| in_size := in_size d; in_queue := in_queue d;
     out_size := Z.of_nat (length kept); out_queue := kept;
     hits_loc := hits_loc d; hits_score := hits_score d;
     hits_opposite_score := hits_opposite_score d;
     hits_pool := Z.of_nat (length kept) * n_hits_per_read p;
     opposite_queue_dvec := opposite_queue_dvec d; aux := aux d |}.

Definition anchor_score (h : nat) : Z := if Nat.even h then 5 else worst_score.

Definition anchor_score_best (_ : Z) (p : Pipeline) (_ : Params) (d : Device unit)
    : Device unit :=
  {| in_size := in_size d; in_queue := in_queue d;
     out_size := out_size d; out_queue := out_queue d;
     hits_loc := hits_loc d;
     hits_score :=
       Thrust.copy (anchor_score <$> seq 0 (Z.to_nat (hits_queue_size p))) (hits_score d);
     hits_opposite_score := hits_opposite_score d; hits_pool := hits_pool d;
     opposite_queue_dvec := opposite_queue_dvec d; aux := aux d |}.

Global Instance kernels : Kernels unit := {|
  band_length := λ max_dist, 2 * max_dist + 1;
  pack_read := λ top_seed read, read;
  select_init := λ _ _ d, d;
  hits_index_setup := λ _ _ x, x;
  Scoring.select := select;
  sort_hi_bits := λ n _, seq 0 (Z.to_nat n);
  locate_init := λ _ _ d, d;
  locate_lookup := λ _ _ d, d;
  Scoring.anchor_score_best := anchor_score_best;
  opposite_dp := λ _ _ _ _, 9;
  score_reduce_paired := λ _ _ _ d, d;
|}.

(** A device whose score buffers hold stale values from earlier work. *)
Definition device (n_reads : nat) : Device unit :=
  {| in_size := 0; in_queue := [];
     out_size := 0; out_queue := [];
     hits_loc := replicate n_reads 0; hits_score := replicate n_reads 0;
     hits_opposite_score := replicate n_reads 7; hits_pool := 0;
     opposite_queue_dvec := []; aux := tt |}.

Definition budget (n : Z) : Params :=
  {| max_reseed := 0; max_ext := n; max_dist := 1; top_seed := 0 |}.

(** [best_approx_score] on the reads [0 .. n_reads): for a given number of
    rounds, and with enough fuel for this selection to empty the queue. *)
Definition score_rounds (fuel : nat) (BATCH_SIZE : Z) (params : Params) (n_reads : nat)
    : bool * State unit * Run.Log (State unit) Event :=
  best_approx_score BATCH_SIZE worst_score params fuel
    (Z.of_nat n_reads) (seqZ 0 (Z.of_nat n_reads)) (enter (device n_reads)).

Definition score_run (BATCH_SIZE : Z) (params : Params) (n_reads : nat)
    : bool * State unit * Run.Log (State unit) Event :=
  score_rounds (S n_reads) BATCH_SIZE params n_reads.

(** The state the [i]-th launch of a run was issued on. *)
Definition state_at (r : bool * State unit * Run.Log (State unit) Event) (i : nat)
    : State unit :=
  from_option snd (enter (device 0)) (Run.log r !! i).

(** The state at the head of the loop in such a run. *)
Definition queued (n_reads : nat) : State unit :=
  enter (pack_reads (budget 0) (Z.of_nat n_reads) (seqZ 0 (Z.of_nat n_reads))
           (resize (Z.of_nat n_reads) (device n_reads))).


(** *** Seeding: read [r] asks for another seed as long as the pass number
    is below it. *)
Definition needs_reseed (anchor seeding_pass : Z) (r : nat) : bool :=
  seeding_pass <? Z.of_nat r.

Definition empty_seed_queues : Seeding.SeedQueues :=
  {| Seeding.in_size := 0; Seeding.in_queue := [];
     Seeding.out_size := 0; Seeding.out_queue := [] |}.

Definition reseed (n : Z) : Params :=
  {| max_reseed := n; max_ext := 1; max_dist := 1; top_seed := 0 |}.

(** Four reads, up to three seeding passes, anchor 0. *)
Definition seed_run : unit * Seeding.SeedQueues * Run.Log Seeding.SeedQueues Seeding.Event :=
  Seeding.seed_anchor (reseed 2) needs_reseed 4 0 empty_seed_queues.

(** *** Finishing: a transcript records which registry it was computed
    from, for which rank and for which read. The backtracking kernels append
    one transcript per read of their subset to the CIGAR buffer, the
    finishing kernels one per read to the MD buffer. *)
Definition Transcript : Type := Finishing.Target * nat * nat.

Definition subset_reads (n : Z) (idx : option (list nat)) : list nat :=
  from_option id (seq 0 (Z.to_nat n)) idx.

Definition write_cigar (aln : nat) (n : Z) (idx : option (list nat))
    (data : Finishing.Target) (m : Finishing.Mem Transcript) : Finishing.Mem Transcript :=
  {| Finishing.best_data_dvec := Finishing.best_data_dvec m;
     Finishing.best_data_dvec_o := Finishing.best_data_dvec_o m;
     Finishing.cigar :=
       Finishing.cigar m ++ ((λ r, (data, aln, r)) <$> subset_reads n idx);
     Finishing.mds := Finishing.mds m;
     Finishing.loc := Finishing.loc m;
     Finishing.batch_number := Finishing.batch_number m |}.

Definition write_mds (aln : nat) (n : Z) (idx : option (list nat))
    (data : Finishing.Target) (m : Finishing.Mem Transcript) : Finishing.Mem Transcript :=
  {| Finishing.best_data_dvec := Finishing.best_data_dvec m;
     Finishing.best_data_dvec_o := Finishing.best_data_dvec_o m;
     Finishing.cigar := Finishing.cigar m;
     Finishing.mds :=
       Finishing.mds m ++ ((λ r, (data, aln, r)) <$> subset_reads n idx);
     Finishing.loc := Finishing.loc m;
     Finishing.batch_number := Finishing.batch_number m |}.

Global Instance finishing_kernels : Finishing.Kernels Transcript := {|
  Finishing.band_length := λ max_dist, 2 * max_dist + 1;
  Finishing.banded_traceback_best := λ aln n idx data _ _, write_cigar aln n idx data;
  Finishing.opposite_traceback_best := λ aln n idx data _, write_cigar aln n idx data;
  Finishing.finish_alignment_best := λ aln n idx data _ _, write_mds aln n idx data;
  Finishing.finish_opposite_alignment_best := λ aln n idx data _ _, write_mds aln n idx data;
|}.

Definition slot (p : Registry.Pairing) : Registry.Alignment :=
  {| Registry.score := 0; Registry.location := 0; Registry.pairing := p |}.

Definition entry (b s : Registry.Pairing) : Registry.BestAlignments :=
  {| Registry.best := slot b; Registry.second := slot s |}.

Definition memory (anchor opposite : list Registry.BestAlignments)
    : Finishing.Mem Transcript :=
  {| Finishing.best_data_dvec := anchor; Finishing.best_data_dvec_o := opposite;
     Finishing.cigar := []; Finishing.mds := [];
     Finishing.loc := [0; 0; 0; 0]%nat; Finishing.batch_number := 0 |}.

(** Three reads with every kind of outcome: read 0 is paired in both ranks,
    read 1 unpaired in both ranks, read 2 has an anchor alignment only. *)
Definition mixed_batch : Finishing.Mem Transcript :=
  memory [entry Registry.Paired Registry.Paired;
          entry Registry.Unpaired Registry.Unpaired;
          entry Registry.Unpaired Registry.Unaligned]
         [entry Registry.Paired Registry.Paired;
          entry Registry.Unpaired Registry.Unpaired;
          entry Registry.Unaligned Registry.Unaligned].

(** Two reads, both aligned with their mates, neither with a second-best
    alignment. *)
Definition no_second_batch : Finishing.Mem Transcript :=
  memory [entry Registry.Paired Registry.Unaligned;
          entry Registry.Unpaired Registry.Unaligned]
         [entry Registry.Paired Registry.Unaligned;
          entry Registry.Unpaired Registry.Unaligned].

End Sample.

(** * Properties *)

(** ** Host arithmetic *)

Lemma uint32_wrap_small z : 0 ≤ z < UInt32.modulus → UInt32.wrap z = z.
Proof. intros Hz. unfold UInt32.wrap. by apply Z.mod_small. Qed.

Lemma uint32_sub_no_borrow a b :
  0 ≤ b ≤ a → a < UInt32.modulus → UInt32.sub a b = a - b.
Proof. intros Hb Ha. unfold UInt32.sub. apply uint32_wrap_small. lia. Qed.

Global Arguments UInt32.wrap : simpl never.
Global Arguments UInt32.add : simpl never.
Global Arguments UInt32.sub : simpl never.
Global Arguments UInt32.div : simpl never.

(** ** The driver monad *)

Section run_facts.
Context {S Ev : Type}.
Implicit Types s : S.

Lemma log_bind {A B} (c : Run.M S Ev A) (k : A → Run.M S Ev B) s :
  Run.log (Run.bind c k s)
  = Run.log (c s) ++ Run.log (k (Run.result (c s)) (Run.final (c s))).
Proof.
  unfold Run.bind, Run.log, Run.result, Run.final.
  destruct (c s) as [[a s1] l1]; simpl.
  by destruct (k a s1) as [[b s2] l2].
Qed.

Lemma final_bind {A B} (c : Run.M S Ev A) (k : A → Run.M S Ev B) s :
  Run.final (Run.bind c k s) = Run.final (k (Run.result (c s)) (Run.final (c s))).
Proof.
  unfold Run.bind, Run.result, Run.final.
  destruct (c s) as [[a s1] l1]; simpl.
  by destruct (k a s1) as [[b s2] l2].
Qed.

Lemma result_bind {A B} (c : Run.M S Ev A) (k : A → Run.M S Ev B) s :
  Run.result (Run.bind c k s) = Run.result (k (Run.result (c s)) (Run.final (c s))).
Proof.
  unfold Run.bind, Run.result, Run.final.
  destruct (c s) as [[a s1] l1]; simpl.
  by destruct (k a s1) as [[b s2] l2].
Qed.

(** A property of log entries holds of a sequence when it holds of both
    halves, whatever the first half returned. *)
Lemma log_bind_Forall {A B} (P : Ev * S → Prop)
    (c : Run.M S Ev A) (k : A → Run.M S Ev B) s :
  Forall P (Run.log (c s)) →
  (∀ a s', Forall P (Run.log (k a s'))) →
  Forall P (Run.log (Run.bind c k s)).
Proof. intros Hc Hk. rewrite log_bind. apply Forall_app. split; [done | apply Hk]. Qed.
End run_facts.

(** *** Stepping through a driver body

    One equation per statement form; each exposes the entry a statement
    logs and the state its continuation runs on. *)
Section run_steps.
Context {S Ev : Type}.
Implicit Types s : S.

Lemma log_ret {A} (a : A) s : Run.log (Run.ret (Ev:=Ev) a s) = [].
Proof. reflexivity. Qed.

Lemma log_call_last (e : Ev) (f : S → S) s : Run.log (Run.call e f s) = [(e, s)].
Proof. reflexivity. Qed.

Lemma log_emit_last (e : Ev) s : Run.log (Run.emit e s) = [(e, s)].
Proof. reflexivity. Qed.

Lemma log_modify_last (f : S → S) s : Run.log (Run.modify (Ev:=Ev) f s) = [].
Proof. reflexivity. Qed.

Lemma log_ret_bind {A B} (a : A) (k : A → Run.M S Ev B) s :
  Run.log (Run.bind (Run.ret a) k s) = Run.log (k a s).
Proof. rewrite log_bind. reflexivity. Qed.

Lemma log_get {B} (k : S → Run.M S Ev B) s :
  Run.log (Run.bind Run.get k s) = Run.log (k s s).
Proof. rewrite log_bind. reflexivity. Qed.

Lemma log_modify {B} (f : S → S) (k : unit → Run.M S Ev B) s :
  Run.log (Run.bind (Run.modify f) k s) = Run.log (k tt (f s)).
Proof. rewrite log_bind. reflexivity. Qed.

Lemma log_call {B} (e : Ev) (f : S → S) (k : unit → Run.M S Ev B) s :
  Run.log (Run.bind (Run.call e f) k s) = (e, s) :: Run.log (k tt (f s)).
Proof. rewrite log_bind. reflexivity. Qed.

Lemma log_emit {B} (e : Ev) (k : unit → Run.M S Ev B) s :
  Run.log (Run.bind (Run.emit e) k s) = (e, s) :: Run.log (k tt s).
Proof. rewrite log_bind. reflexivity. Qed.

Lemma log_fetch {A B} (e : Ev) (f : S → A) (k : A → Run.M S Ev B) s :
  Run.log (Run.bind (Run.fetch e f) k s) = (e, s) :: Run.log (k (f s) s).
Proof. rewrite log_bind. reflexivity. Qed.

Lemma log_when_true {B} (c : Run.M S Ev unit) (k : unit → Run.M S Ev B) s :
  Run.log (Run.bind (Run.when true c) k s) = Run.log (Run.bind c k s).
Proof. reflexivity. Qed.

Lemma log_when_false {B} (c : Run.M S Ev unit) (k : unit → Run.M S Ev B) s :
  Run.log (Run.bind (Run.when false c) k s) = Run.log (k tt s).
Proof. rewrite log_bind. reflexivity. Qed.

Lemma outcome_bind {A B} (c : Run.M S Ev A) (k : A → Run.M S Ev B) s :
  Run.outcome (Run.bind c k s)
  = Run.outcome (k (Run.result (c s)) (Run.final (c s))).
Proof.
  unfold Run.bind, Run.outcome, Run.result, Run.final.
  destruct (c s) as [[a s1] l1]; simpl.
  by destruct (k a s1) as [[b s2] l2].
Qed.

Lemma log_bind_assoc {A B C} (c : Run.M S Ev A) (k1 : A → Run.M S Ev B)
    (k2 : B → Run.M S Ev C) s :
  Run.log (Run.bind (Run.bind c k1) k2 s)
  = Run.log (Run.bind c (λ a, Run.bind (k1 a) k2) s).
Proof.
  rewrite !log_bind, final_bind, result_bind. by rewrite app_assoc.
Qed.
End run_steps.

(** Tactics that walk a driver body statement by statement. [run_entry tac]
    exposes the next logged entry and proves the property of it by [tac];
    [run_quiet] consumes statements that log nothing; [run_branch] follows
    the host code into both arms of its next test. *)
Ltac run_quiet :=
  first [ rewrite log_modify | rewrite log_get | rewrite log_ret_bind
        | rewrite log_when_true | rewrite log_when_false ].

Ltac run_entry tac :=
  first [ rewrite log_call | rewrite log_fetch | rewrite log_emit
        | rewrite log_call_last | rewrite log_emit_last ];
  apply List.Forall_cons; [tac | ].

Ltac run_end :=
  first [ rewrite log_ret | rewrite log_modify_last ]; apply List.Forall_nil.

Ltac run_branch :=
  match goal with
  | |- context [Run.when (negb (bool_decide ?P)) _] =>
      destruct (bool_decide_reflect P); cbn [negb]
  | |- context [Run.when (bool_decide ?P) _] => destruct (bool_decide_reflect P)
  | |- Forall _ (Run.log ((if bool_decide ?P then _ else _) _)) =>
      destruct (bool_decide_reflect P)
  | |- Forall _ (Run.log (Run.bind (if bool_decide ?P then _ else _) _ _)) =>
      destruct (bool_decide_reflect P)
  end.

(** Forget how the current state was reached. *)
Ltac run_forget :=
  match goal with
  | |- Forall _ (Run.log (_ ?s)) => first [ is_var s | generalize s; intro ]
  end.

Ltac run_rest tac :=
  repeat first [ run_end | run_quiet | run_entry tac; [run_forget] | run_branch ].

(** ** Thrust algorithms *)

Lemma take_copy {A} (src buf : list A) : take (length src) (Thrust.copy src buf) = src.
Proof. unfold Thrust.copy. apply take_app_length. Qed.

Lemma lookup_fill_lt {A} n (v : A) buf j :
  (j < n)%nat → Thrust.fill n v buf !! j = Some v.
Proof.
  intros Hj. unfold Thrust.fill.
  rewrite lookup_app_l by (by rewrite length_replicate).
  by apply lookup_replicate_2.
Qed.

Lemma elem_of_copy_if {A} count (stencil : nat → option A) pred i :
  i ∈ Thrust.copy_if count stencil pred
  ↔ (i < count)%nat ∧ Thrust.selected stencil pred i = true.
Proof.
  unfold Thrust.copy_if. rewrite list_elem_of_filter, elem_of_seq.
  split.
  - intros [Hp Hi]. split; [lia | by apply Is_true_true].
  - intros [Hi Hp]. split; [by apply Is_true_true | lia].
Qed.

Lemma copy_if_sublist {A} count (stencil : nat → option A) pred :
  Thrust.copy_if count stencil pred `sublist_of` seq 0 count.
Proof. unfold Thrust.copy_if. apply sublist_filter. Qed.

Lemma copy_if_NoDup {A} count (stencil : nat → option A) pred :
  NoDup (Thrust.copy_if count stencil pred).
Proof. unfold Thrust.copy_if. apply NoDup_filter, NoDup_seq. Qed.

(** ** The extension and scoring loop *)

Section scoring_facts.
Import Scoring.
Context {X : Type} `{!Kernels X}.
Variable BATCH_SIZE : Z.
Variable worst_score : Z.
Variable params : Params.

Local Abbreviation round := (extension_round BATCH_SIZE worst_score params).
Local Abbreviation loop := (extension_loop BATCH_SIZE worst_score params).

(** Whatever holds of the launches of one round, from any state, holds of
    every launch of the loop. *)
Lemma extension_loop_Forall (P : Event * State X → Prop) :
  (∀ s, Forall P (Run.log (round s))) →
  ∀ fuel s, Forall P (Run.log (loop fuel s)).
Proof.
  intros Hround. induction fuel as [|fuel IH]; intros s; simpl.
  - destruct (bool_decide _); constructor.
  - destruct (bool_decide _); [constructor |].
    apply log_bind_Forall; [apply Hround |].
    intros [] s'; [constructor |].
    apply log_bind_Forall; [constructor | intros; apply IH].
Qed.


(** The same for the whole of [best_approx_score], whose first three
    launches prepare the queue. *)
Lemma best_approx_score_Forall (P : Event * State X → Prop) :
  (∀ s, Forall P (Run.log (round s))) →
  (∀ s, P (Resize, s)) → (∀ s, P (PackReads, s)) → (∀ s, P (SelectInit, s)) →
  ∀ fuel n q s i entry,
    Run.log (best_approx_score BATCH_SIZE worst_score params fuel n q s) !! i
      = Some entry →
    P entry.
Proof.
  intros Hround H1 H2 H3 fuel n q s. apply Forall_lookup.
  unfold best_approx_score.
  rewrite log_call. constructor; [apply H1 |].
  rewrite log_call. constructor; [apply H2 |].
  rewrite log_modify, log_call. constructor; [apply H3 |].
  rewrite log_modify. by apply extension_loop_Forall.
Qed.

(** *** The batching policy *)

Lemma extension_round_policy s :
  Forall (λ entry : Event * State X, entry.1 = HitsIndexSetup →
    let Q := in_size (dev entry.2) in
    (Q > BATCH_SIZE `div` 2 → n_hits_per_read (pipeline entry.2) = 1) ∧
    (Q ≤ BATCH_SIZE `div` 2 →
     n_hits_per_read (pipeline entry.2)
     = Z.min (BATCH_SIZE `div` Q)
             (Z.min 4096 (UInt32.sub (max_ext params) (n_ext entry.2)))))
   (Run.log (round s)).
Proof.
  unfold extension_round.
  run_entry ltac:(intros; discriminate).
  do 2 run_quiet. cbn [dev pipeline n_ext in_size on_pipeline on_dev clear_output].
  run_branch; run_quiet.
  - run_quiet. run_entry idtac.
    + intros _. cbn. unfold UInt32.div in *. split; intros; [lia | done].
    + run_rest ltac:(intros; discriminate).
  - run_entry idtac.
    + intros _. cbn. unfold UInt32.div in *. split; intros; [done | lia].
    + run_rest ltac:(intros; discriminate).
Qed.

(** C1. In every extension round, with [Q] the active-read queue size and
    [C] the batch capacity [BATCH_SIZE], the hit index is set up (and the
    selection launched) with [n_hits_per_read = 1] when [Q > C/2], and with
    [min (C/Q) (min 4096 (max_ext - n_ext))] when [Q <= C/2]. The difference
    is the [uint32] one of the source; it is the plain difference as long as
    the counter has not passed the budget. *)
Theorem C1_adaptive_batching fuel n q s0 i s :
  Run.log (best_approx_score BATCH_SIZE worst_score params fuel n q s0) !! i
    = Some (HitsIndexSetup, s) →
  let Q := in_size (dev s) in
  let C := BATCH_SIZE in
  (Q > C `div` 2 → n_hits_per_read (pipeline s) = 1) ∧
  (Q ≤ C `div` 2 →
     n_hits_per_read (pipeline s)
     = Z.min (C `div` Q) (Z.min 4096 (UInt32.sub (max_ext params) (n_ext s)))) ∧
  (Q ≤ C `div` 2 → 0 ≤ n_ext s ≤ max_ext params → max_ext params < 2 ^ 32 →
     n_hits_per_read (pipeline s)
     = Z.min (C `div` Q) (Z.min 4096 (max_ext params - n_ext s))).
Proof.
  intros Hi Q C.
  apply (best_approx_score_Forall _ extension_round_policy) in Hi;
    [| first [reflexivity | intros ? [=]] ..].
  destruct Hi as [Hone Hmany]. cbn [fst snd] in Hone, Hmany.
  split; [exact Hone |]. split; [exact Hmany |].
  intros HQ Hext Hmax. rewrite <- uint32_sub_no_borrow; [by apply Hmany | lia | done].
Qed.

(** C2, as the code has it. When the queue size is exactly half the batch
    capacity the test [in_size <= BATCH_SIZE/2] succeeds, so the round takes
    the multiple-hits branch: [n_hits_per_read] is
    [min (C/Q) (min 4096 (max_ext - n_ext))], not [1]. *)
Theorem C2_half_capacity_is_multi_hit fuel n q s0 i s :
  Run.log (best_approx_score BATCH_SIZE worst_score params fuel n q s0) !! i
    = Some (HitsIndexSetup, s) →
  in_size (dev s) = BATCH_SIZE `div` 2 →
  n_hits_per_read (pipeline s)
  = Z.min (BATCH_SIZE `div` in_size (dev s))
          (Z.min 4096 (UInt32.sub (max_ext params) (n_ext s))).
Proof.
  intros Hi HQ.
  apply (best_approx_score_Forall _ extension_round_policy) in Hi;
    [| first [reflexivity | intros ? [=]] ..].
  destruct Hi as [_ Hmany]. cbn [fst snd] in Hmany. apply Hmany. lia.
Qed.

(** *** The size of the hit queue *)

Lemma extension_round_hits_queue_size s :
  Forall (λ entry : Event * State X,
    (entry.1 = HitsCount → 1 < n_hits_per_read (pipeline entry.2)) ∧
    (entry.1 = LocateSort →
       (n_hits_per_read (pipeline entry.2) = 1 →
          hits_queue_size (pipeline entry.2) = in_size (dev entry.2)) ∧
       (1 < n_hits_per_read (pipeline entry.2) →
          hits_queue_size (pipeline entry.2) = hits_count (dev entry.2))))
   (Run.log (round s)).
Proof.
  unfold extension_round.
  run_entry ltac:(split; intros [=]). run_forget.
  do 2 run_quiet. run_branch; repeat run_quiet.
  all: do 3 (run_entry ltac:(split; intros [=]); [run_forget]).
  all: run_quiet; run_branch; [run_end |].
  (* the hit counter is read back, or the queue size is taken *)
  all: run_branch.
  all: first [ run_entry ltac:(split; [intros _; assumption | intros [=]])
             | run_quiet ].
  all: run_quiet.
  all: run_branch; [run_end |].
  (* the locate sort is the first launch that is given the size *)
  all: run_entry ltac:(split; [intros [=] |
         intros _; cbn; split; intros; first [reflexivity | lia]]).
  all: run_forget; run_rest ltac:(split; intros [=]).
Qed.

(** C10. A round that selected one hit per read takes the size of the hit
    queue from the active-read queue as it stands after the swap; the
    device-side hit counter is read back in no such round, only in rounds
    with [n_hits_per_read > 1], where it becomes the size of the hit queue.
    The sizes are those the first consumer, the locate sort, is launched
    with. *)
Theorem C10_single_hit_queue_size fuel n q s0 i e s :
  Run.log (best_approx_score BATCH_SIZE worst_score params fuel n q s0) !! i
    = Some (e, s) →
  (e = HitsCount → 1 < n_hits_per_read (pipeline s)) ∧
  (e = LocateSort → n_hits_per_read (pipeline s) = 1 →
     hits_queue_size (pipeline s) = in_size (dev s)) ∧
  (e = LocateSort → 1 < n_hits_per_read (pipeline s) →
     hits_queue_size (pipeline s) = hits_count (dev s)).
Proof.
  intros Hi.
  apply (best_approx_score_Forall _ extension_round_hits_queue_size) in Hi;
    [| intros ?; split; intros [=] ..].
  destruct Hi as [Hcount Hsort]. cbn [fst snd] in Hcount, Hsort.
  split; [exact Hcount |].
  split; intros He; by destruct (Hsort He).
Qed.

(** *** The opposite-score buffer *)

Lemma foldl_insert_lookup_ne (g : nat → Z) (targets : list nat) (buf : list Z) j :
  j ∉ targets →
  foldl (λ b h, <[h := g h]> b) buf targets !! j = buf !! j.
Proof.
  revert buf. induction targets as [|h targets IH]; intros buf Hj; [done |].
  apply not_elem_of_cons in Hj as [Hne Hj]. simpl.
  rewrite IH by done. by apply list_lookup_insert_ne.
Qed.

Lemma extension_round_opposite_score s :
  Forall (λ entry : Event * State X,
    let p := pipeline entry.2 in
    let d := dev entry.2 in
    (entry.1 = FillOppositeScore →
       take (Z.to_nat (opposite_queue_size p)) (opposite_queue_dvec d)
       = opposite_candidates worst_score p d) ∧
    (entry.1 = OppositeScore →
       ∀ j, (j < Z.to_nat (hits_queue_size p))%nat →
            hits_opposite_score d !! j = Some worst_score) ∧
    (entry.1 = ScoreReduce →
       ∀ j, (j < Z.to_nat (hits_queue_size p))%nat →
            j ∉ opposite_targets p d →
            hits_opposite_score d !! j = Some worst_score))
   (Run.log (round s)).
Proof.
  unfold extension_round.
  run_entry ltac:(repeat split; intros [=]). run_forget.
  do 2 run_quiet. run_branch; repeat run_quiet.
  all: do 3 (run_entry ltac:(repeat split; intros [=]); [run_forget]).
  all: run_quiet; run_branch; [run_end |].
  all: run_branch.
  all: first [ run_entry ltac:(repeat split; intros [=]) | run_quiet ].
  all: run_quiet; run_forget.
  all: run_branch; [run_end |].
  all: run_entry ltac:(repeat split; intros [=]); run_quiet; run_forget.
  all: do 2 (run_entry ltac:(repeat split; intros [=]); [run_forget]).
  all: run_entry ltac:(repeat split; intros [=]); run_quiet; run_forget.
  all: run_entry ltac:(repeat split; intros [=]); run_forget.
  (* compaction, then the fill *)
  all: run_entry ltac:(repeat split; intros [=]).
  all: run_entry idtac; [repeat split; [intros _ | intros [=] ..] | run_quiet].
  all: try (cbn; rewrite Nat2Z.id; apply take_copy).
  all: run_branch; run_quiet.
  (* no candidate: the reduction follows the fill at once *)
  1,3,5,7: run_entry idtac;
    [repeat split; [intros [=] .. | intros _ j Hj Hnot]; cbn in *;
       by apply lookup_fill_lt
    | run_quiet; run_end].
  (* candidates: the opposite scoring runs in between *)
  all: run_entry idtac;
    [repeat split; [intros [=] | intros _ j Hj | intros [=]]; cbn in *;
       by apply lookup_fill_lt |].
  all: run_entry idtac;
    [repeat split; [intros [=] .. | intros _ j Hj Hnot] | run_quiet; run_end].
  all: cbn in *; rewrite foldl_insert_lookup_ne by exact Hnot.
  all: by apply lookup_fill_lt.
Qed.

(** C8, as the code has it. In every round that scores hits, the cells of
    the opposite-score buffer for all selected hits are set to [worst_score]
    after the opposite-mate candidates were compacted (the fill is launched
    on a state whose opposite queue already holds them) and before the
    opposite mates are scored. The opposite scoring writes the candidates'
    cells only, so when the reduction is launched every selected hit that is
    not a candidate still carries [worst_score]. *)
Theorem C8_opposite_score_reset fuel n q s0 i e s :
  Run.log (best_approx_score BATCH_SIZE worst_score params fuel n q s0) !! i
    = Some (e, s) →
  let p := pipeline s in
  let d := dev s in
  (e = FillOppositeScore →
     take (Z.to_nat (opposite_queue_size p)) (opposite_queue_dvec d)
     = opposite_candidates worst_score p d) ∧
  (e = OppositeScore →
     ∀ j, (j < Z.to_nat (hits_queue_size p))%nat →
          hits_opposite_score d !! j = Some worst_score) ∧
  (e = ScoreReduce →
     ∀ j, (j < Z.to_nat (hits_queue_size p))%nat →
          j ∉ opposite_targets p d →
          hits_opposite_score d !! j = Some worst_score).
Proof.
  intros Hi.
  by apply (best_approx_score_Forall _ extension_round_opposite_score) in Hi;
    [| intros ?; repeat split; intros [=] ..].
Qed.

(** *** Leaving the loop *)

Lemma extension_round_break s :
  Run.result (round s) = true → in_size (dev (Run.final (round s))) = 0.
Proof.
  change (let o := Run.outcome (round s) in o.1 = true → in_size (dev o.2) = 0).
  unfold extension_round. cbv zeta.
  rewrite !outcome_bind.
  match goal with
  | |- context [Run.result (Run.get ?x)] =>
      change (Run.result (Run.get x)) with x;
      change (Run.final (Run.get x)) with x; generalize x
  end.
  intros s1. destruct (bool_decide_reflect (in_size (dev s1) = 0)) as [Hz | Hnz].
  - intros _. exact Hz.
  - intros Hbreak. exfalso. revert Hbreak.
    match goal with
    | |- (Run.outcome ?r).1 = true → False => change (Run.result r ≠ true)
    end.
    rewrite !result_bind.
    match goal with
    | |- context [bool_decide (?n = 0)] => destruct (bool_decide_reflect (n = 0))
    end; [discriminate |].
    rewrite !result_bind. discriminate.
Qed.

Lemma extension_loop_exit fuel s :
  Run.result (loop fuel s) = true → in_size (dev (Run.final (loop fuel s))) = 0.
Proof.
  revert s. induction fuel as [|fuel IH]; intros s; simpl.
  - destruct (bool_decide_reflect (in_size (dev s) = 0)); [done | discriminate].
  - destruct (bool_decide_reflect (in_size (dev s) = 0)); [done |].
    rewrite result_bind, final_bind.
    destruct (Run.result (round s)) eqn:Hstop.
    + intros _. by apply extension_round_break.
    + rewrite result_bind, final_bind. apply IH.
Qed.

Lemma extension_loop_empty fuel s :
  in_size (dev s) = 0 → loop fuel s = (true, s, []).
Proof.
  intros Hz. destruct fuel; simpl; by rewrite bool_decide_eq_true_2.
Qed.

Lemma extension_loop_enters fuel s :
  in_size (dev s) ≠ 0 →
  ∃ rest, Run.log (loop (S fuel) s) = (ClearOutput, s) :: rest.
Proof.
  intros Hnz. simpl. rewrite bool_decide_eq_false_2 by done.
  rewrite log_bind. unfold extension_round at 1. rewrite log_call.
  eexists. reflexivity.
Qed.

(** C5, as the code has it. The only test of the extension loop is that the
    active-read queue is not empty: with an empty queue no round is run;
    with a non-empty queue a round is run, whatever the extension counter
    and [max_ext] are; and the loop, and with it [best_approx_score], is
    left only with an empty queue. The budget [max_ext] enters the round
    through the cap on [n_hits_per_read] of the multiple-hits branch alone. *)
Theorem C5_rounds_until_queue_empty fuel s :
  (in_size (dev s) = 0 → loop fuel s = (true, s, [])) ∧
  (in_size (dev s) ≠ 0 →
     ∃ rest, Run.log (loop (S fuel) s) = (ClearOutput, s) :: rest) ∧
  (Run.result (loop fuel s) = true →
     in_size (dev (Run.final (loop fuel s))) = 0) ∧
  (∀ n q,
     let r := best_approx_score BATCH_SIZE worst_score params fuel n q s in
     Run.result r = true → in_size (dev (Run.final r)) = 0).
Proof.
  split; [apply extension_loop_empty |].
  split; [apply extension_loop_enters |].
  split; [apply extension_loop_exit |].
  intros n q r. subst r. unfold best_approx_score.
  rewrite !result_bind, !final_bind. apply extension_loop_exit.
Qed.
End scoring_facts.

(** *** Runs of the sample kernels *)

Section scoring_runs.
Import Scoring.

(** The worked case of the policy: C = 1024, Q = 100 and three extensions
    left give three hits per read. *)
Lemma C1_adaptive_batching_witness :
  let s := Sample.state_at (Sample.score_rounds 1 1024 (Sample.budget 3) 100) 4 in
  in_size (dev s) = 100 ∧ n_hits_per_read (pipeline s) = 3.
Proof.
  intros s. split; [vm_compute; reflexivity |].
  refine (eq_trans
    (proj1 (proj2 (C1_adaptive_batching 1024 Sample.worst_score (Sample.budget 3)
                     1 100 (seqZ 0 100) (enter (Sample.device 100)) 4 s _)) _) _).
  - vm_compute. reflexivity.
  - vm_compute. discriminate.
  - vm_compute. reflexivity.
Defined.

(** With C = 1024 and 512 active reads the round is at the boundary
    Q = C/2; it selects two hits per read. *)
Lemma C2_half_capacity_witness :
  let s := Sample.state_at (Sample.score_rounds 1 1024 (Sample.budget 10) 512) 4 in
  in_size (dev s) = 1024 `div` 2 ∧ n_hits_per_read (pipeline s) = 2.
Proof.
  intros s. split; [vm_compute; reflexivity |].
  refine (eq_trans
    (C2_half_capacity_is_multi_hit 1024 Sample.worst_score (Sample.budget 10)
       1 512 (seqZ 0 512) (enter (Sample.device 512)) 4 s _ _) _).
  - vm_compute. reflexivity.
  - vm_compute. reflexivity.
  - vm_compute. reflexivity.
Defined.

(** The claim as worded, "at Q = C/2 one hit per read is selected", fails
    on that run. *)
Lemma C2_counterexample :
  ¬ (∀ X (K : Kernels X) (BATCH_SIZE worst_score : Z) (params : Params)
       fuel n q (s0 : State X) i s,
       Run.log (best_approx_score BATCH_SIZE worst_score params fuel n q s0) !! i
         = Some (HitsIndexSetup, s) →
       in_size (dev s) = BATCH_SIZE `div` 2 →
       n_hits_per_read (pipeline s) = 1).
Proof.
  intros Hclaim.
  specialize (Hclaim unit Sample.kernels 1024 Sample.worst_score (Sample.budget 10)
                1%nat 512 (seqZ 0 512) (enter (Sample.device 512)) 4%nat
                (Sample.state_at (Sample.score_rounds 1 1024 (Sample.budget 10) 512) 4)).
  assert (n_hits_per_read
            (pipeline (Sample.state_at
                         (Sample.score_rounds 1 1024 (Sample.budget 10) 512) 4))
          = 1) as Hone.
  { apply Hclaim; vm_compute; reflexivity. }
  vm_compute in Hone. discriminate.
Qed.

(** With C = 2 and a budget of one extension, three reads are worked off in
    three rounds; the loop is left with an empty queue. *)
Lemma C5_rounds_until_queue_empty_witness :
  in_size (dev (Run.final
    (extension_loop 2 Sample.worst_score (Sample.budget 1) 4 (Sample.queued 3)))) = 0.
Proof.
  apply (proj1 (proj2 (proj2
    (C5_rounds_until_queue_empty 2 Sample.worst_score (Sample.budget 1) 4
       (Sample.queued 3))))).
  vm_compute. reflexivity.
Defined.

(** The claim as worded, "no round is run once [n_ext] has reached
    [max_ext]", fails on that run: its second round starts with
    [n_ext = max_ext = 1], its third with [n_ext = 2]. *)
Lemma C5_counterexample :
  ¬ (∀ X (K : Kernels X) (BATCH_SIZE worst_score : Z) (params : Params)
       fuel n q (s0 : State X) i s,
       Run.log (best_approx_score BATCH_SIZE worst_score params fuel n q s0) !! i
         = Some (ClearOutput, s) →
       n_ext s < max_ext params).
Proof.
  intros Hclaim.
  specialize (Hclaim unit Sample.kernels 2 Sample.worst_score (Sample.budget 1)
                4%nat 3 (seqZ 0 3) (enter (Sample.device 3)) 16%nat
                (Sample.state_at (Sample.score_run 2 (Sample.budget 1) 3) 16)).
  assert (n_ext (Sample.state_at (Sample.score_run 2 (Sample.budget 1) 3) 16)
          < max_ext (Sample.budget 1)) as Hlt.
  { apply Hclaim. vm_compute. reflexivity. }
  vm_compute in Hlt. discriminate.
Qed.

(** In the first round of that run two hits are selected and only hit 0 is
    a candidate; hit 1 still carries the worst score at the reduction. *)
Lemma C8_opposite_score_reset_witness :
  let s := Sample.state_at (Sample.score_run 2 (Sample.budget 1) 3) 15 in
  hits_opposite_score (dev s) !! 1%nat = Some Sample.worst_score.
Proof.
  intros s.
  refine (proj2 (proj2
    (C8_opposite_score_reset 2 Sample.worst_score (Sample.budget 1)
       4 3 (seqZ 0 3) (enter (Sample.device 3)) 15 ScoreReduce s _))
    eq_refl 1%nat _ _).
  - vm_compute. reflexivity.
  - vm_compute. lia.
  - assert (opposite_targets (pipeline s) (dev s) = [0%nat]) as ->
      by (vm_compute; reflexivity).
    apply not_elem_of_cons. split; [lia | apply not_elem_of_nil].
Defined.

(** The claim as worded, "the buffer is reset before the compaction", fails
    on that run: when the compaction is launched the cell of hit 0 still
    holds the stale 7. *)
Lemma C8_counterexample :
  ¬ (∀ X (K : Kernels X) (BATCH_SIZE worst_score : Z) (params : Params)
       fuel n q (s0 : State X) i s j,
       Run.log (best_approx_score BATCH_SIZE worst_score params fuel n q s0) !! i
         = Some (CompactOpposite, s) →
       (j < Z.to_nat (hits_queue_size (pipeline s)))%nat →
       hits_opposite_score (dev s) !! j = Some worst_score).
Proof.
  intros Hclaim.
  specialize (Hclaim unit Sample.kernels 2 Sample.worst_score (Sample.budget 1)
                4%nat 3 (seqZ 0 3) (enter (Sample.device 3)) 12%nat
                (Sample.state_at (Sample.score_run 2 (Sample.budget 1) 3) 12) 0%nat).
  assert (hits_opposite_score
            (dev (Sample.state_at (Sample.score_run 2 (Sample.budget 1) 3) 12)) !! 0%nat
          = Some Sample.worst_score) as Hreset.
  { apply Hclaim; [vm_compute; reflexivity | vm_compute; lia]. }
  vm_compute in Hreset. discriminate.
Qed.

(** In the first round of that run one hit per read is selected; the hit
    queue gets the size of the swapped active-read queue, two. *)
Lemma C10_single_hit_queue_size_witness :
  let s := Sample.state_at (Sample.score_run 2 (Sample.budget 1) 3) 7 in
  hits_queue_size (pipeline s) = in_size (dev s).
Proof.
  intros s.
  refine (proj1 (proj2
    (C10_single_hit_queue_size 2 Sample.worst_score (Sample.budget 1)
       4 3 (seqZ 0 3) (enter (Sample.device 3)) 7 LocateSort s _))
    eq_refl _).
  - vm_compute. reflexivity.
  - vm_compute. reflexivity.
Defined.
End scoring_runs.

(** ** The seeding passes *)

Section seeding_facts.
Import Seeding.
Variable params : Params.
Variable needs_reseed : Z → Z → nat → bool.

Local Abbreviation passes := (seeding_passes needs_reseed).

(** The reads a pass hands to the next one: those of its own queue that ask
    for another seed. *)
Lemma active_reads_next (keep : nat → bool) q :
  active_reads (swap (report_reseed keep (clear_output q)))
  = filter (λ r, keep r) (active_reads q).
Proof.
  unfold active_reads, swap, report_reseed, push_all, clear_output.
  cbn [in_size in_queue out_size out_queue].
  change (Z.to_nat 0) with 0%nat. rewrite Z.add_0_l, Nat2Z.id.
  rewrite take_0, app_nil_l. apply take_app_length.
Qed.

Lemma pass_queues_step remaining anchor seeding_pass q :
  in_size q ≠ 0 →
  pass_queues (Run.log (passes (S remaining) anchor seeding_pass q))
  = active_reads q
    :: pass_queues (Run.log (passes remaining anchor (seeding_pass + 1)
         (swap (report_reseed (needs_reseed anchor seeding_pass) (clear_output q))))).
Proof.
  intros Hnz. simpl. rewrite bool_decide_eq_false_2 by done.
  rewrite log_bind. unfold pass_queues. rewrite omap_app. reflexivity.
Qed.

Lemma pass_queues_stop remaining anchor seeding_pass q :
  in_size q = 0 →
  pass_queues (Run.log (passes remaining anchor seeding_pass q)) = [].
Proof.
  intros Hz. destruct remaining; simpl; [done |].
  by rewrite bool_decide_eq_true_2.
Qed.

(** Every pass works on a sublist of the queue the passes started from. *)
Lemma pass_queues_sublist remaining anchor seeding_pass q i qi :
  pass_queues (Run.log (passes remaining anchor seeding_pass q)) !! i = Some qi →
  qi `sublist_of` active_reads q.
Proof.
  revert seeding_pass q i.
  induction remaining as [|remaining IH]; intros seeding_pass q i Hi; [done |].
  destruct (decide (in_size q = 0)) as [Hz | Hnz].
  { by rewrite pass_queues_stop in Hi. }
  rewrite pass_queues_step in Hi by done.
  destruct i as [|i]; simpl in Hi.
  - by injection Hi as <-.
  - apply IH in Hi. rewrite active_reads_next in Hi.
    etrans; [exact Hi | apply sublist_filter].
Qed.

(** A later pass works on a sublist of the queue of any earlier pass. *)
Lemma pass_queues_chain remaining anchor seeding_pass q i j qi qj :
  (i ≤ j)%nat →
  pass_queues (Run.log (passes remaining anchor seeding_pass q)) !! i = Some qi →
  pass_queues (Run.log (passes remaining anchor seeding_pass q)) !! j = Some qj →
  qj `sublist_of` qi.
Proof.
  revert seeding_pass q i j.
  induction remaining as [|remaining IH]; intros seeding_pass q i j Hij Hi Hj;
    [done |].
  destruct (decide (in_size q = 0)) as [Hz | Hnz].
  { by rewrite pass_queues_stop in Hi. }
  rewrite pass_queues_step in Hi, Hj by done.
  destruct i as [|i], j as [|j]; simpl in Hi, Hj; try lia.
  - injection Hi as <-. by injection Hj as <-.
  - injection Hi as <-. apply pass_queues_sublist in Hj.
    rewrite active_reads_next in Hj.
    etrans; [exact Hj | apply sublist_filter].
  - eapply IH; [| exact Hi | exact Hj]. lia.
Qed.

(** C9. For either anchor, the queues of the successive seeding passes of a
    batch of [count] reads: the first one holds all the reads; a later pass
    never has more reads than an earlier one; no pass has more than [count]
    reads (the first has exactly [count], so the bound is not strict); every
    read of a later pass was in every earlier pass, so a read that has left
    the queue is in no later pass. *)
Theorem C9_seed_queue_narrows count anchor q0 i j qi qj :
  0 ≤ count →
  (i ≤ j)%nat →
  pass_queues (Run.log (seed_anchor params needs_reseed count anchor q0)) !! i
    = Some qi →
  pass_queues (Run.log (seed_anchor params needs_reseed count anchor q0)) !! j
    = Some qj →
  (i = 0%nat → qi = seq 0 (Z.to_nat count)) ∧
  (length qj ≤ length qi)%nat ∧
  Z.of_nat (length qi) ≤ count ∧
  (∀ r, r ∈ qj → r ∈ qi) ∧
  (∀ r, r ∉ qi → r ∉ qj).
Proof.
  intros Hcount Hij. unfold seed_anchor. rewrite log_call.
  change (pass_queues (?e :: ?l)) with (pass_queues l).
  set (q := start_full count q0).
  assert (active_reads q = seq 0 (Z.to_nat count)) as Hfull.
  { unfold active_reads, q, start_full. cbn.
    transitivity (take (length (seq 0 (Z.to_nat count)))
                       (Thrust.copy (seq 0 (Z.to_nat count)) (in_queue q0)));
      [by rewrite length_seq | apply take_copy]. }
  intros Hi Hj.
  pose proof (pass_queues_sublist _ _ _ _ _ _ Hi) as Hsub.
  pose proof (pass_queues_chain _ _ _ _ _ _ _ _ Hij Hi Hj) as Hchain.
  rewrite Hfull in Hsub.
  split; [| split; [| split; [| split]]].
  - intros ->. destruct (decide (in_size q = 0)) as [Hz | Hnz].
    { by rewrite pass_queues_stop in Hi. }
    destruct (Z.to_nat (UInt32.add (max_reseed params) 1)) as [|remaining];
      [done |].
    rewrite pass_queues_step in Hi by done. simpl in Hi.
    injection Hi as <-. exact Hfull.
  - by apply sublist_length.
  - apply sublist_length in Hsub. rewrite length_seq in Hsub. lia.
  - intros r Hr. by eapply elem_of_sublist.
  - intros r Hnot Hr. apply Hnot. by eapply elem_of_sublist.
Qed.
End seeding_facts.

(** Four reads, [max_reseed = 2]: the passes work on 4, 3 and 2 reads. Read 0
    is dropped by the first pass and is not in the third. *)
Lemma C9_seed_queue_narrows_witness :
  (length [2; 3]%nat ≤ length [1; 2; 3]%nat)%nat
  ∧ Z.of_nat (length [1; 2; 3]%nat) ≤ 4
  ∧ 0%nat ∉ [2; 3]%nat.
Proof.
  destruct (C9_seed_queue_narrows (Sample.reseed 2) Sample.needs_reseed 4 0
              Sample.empty_seed_queues 1 2 [1; 2; 3]%nat [2; 3]%nat)
    as (_ & Hlen & Hcount & _ & Hgone).
  - lia.
  - lia.
  - vm_compute. reflexivity.
  - vm_compute. reflexivity.
  - split; [exact Hlen | split; [exact Hcount |]].
    apply Hgone. rewrite !not_elem_of_cons.
    repeat split; [lia .. | apply not_elem_of_nil].
Defined.

(** ** Compaction by outcome *)

Section compaction_facts.
Import Registry Finishing.
Context {T : Type}.
Implicit Types m : Mem T.

Lemma elem_of_compaction p data count m i :
  i ∈ compaction p data count m
  ↔ (i < Z.to_nat count)%nat ∧ ∃ b, registry data m !! i = Some b ∧ holds p b = true.
Proof.
  unfold compaction. rewrite elem_of_copy_if. unfold Thrust.selected.
  destruct (registry data m !! i) as [b|]; simpl.
  - split; [intros [? ?]; eauto | intros [? (b' & [= <-] & ?)]; done].
  - split; [intros [? [=]] | intros [? (b' & [=] & ?)]].
Qed.

(** Two predicates that never hold together select disjoint index lists;
    a predicate that is the disjunction of two others selects the union. *)
Lemma compaction_split (p u a : Predicate) data count m :
  (∀ b, holds p b && holds u b = false) →
  (∀ b, holds a b = holds p b || holds u b) →
  (∀ i, i ∈ compaction p data count m → i ∉ compaction u data count m) ∧
  (∀ i, i ∈ compaction a data count m
        ↔ i ∈ compaction p data count m ∨ i ∈ compaction u data count m).
Proof.
  intros Hexcl Hunion. split.
  - intros i. rewrite !elem_of_compaction.
    intros [_ (b & Hb & Hp)] [_ (b' & Hb' & Hu)].
    rewrite Hb in Hb'. injection Hb' as <-.
    specialize (Hexcl b). rewrite Hp, Hu in Hexcl. discriminate.
  - intros i. rewrite !elem_of_compaction. split.
    + intros [Hi (b & Hb & Ha)]. rewrite Hunion in Ha.
      apply orb_true_iff in Ha as [Hp | Hu]; [left | right]; eauto.
    + intros [[Hi (b & Hb & Hp)] | [Hi (b & Hb & Hu)]];
        (split; [done |]); exists b; (split; [done |]);
        rewrite Hunion; apply orb_true_iff; auto.
Qed.

(** C3. Against any snapshot of a registry and for either rank, the index
    lists selected by the paired and by the unpaired predicate are disjoint,
    their union is the list selected by the aligned predicate ([is_aligned]
    for the best rank, [has_second] for the second-best), and each of the
    lists is an order-preserving, duplicate-free selection from
    [0, count): exactly the indices below [count] whose registry entry
    satisfies the predicate. *)
Theorem C3_paired_unpaired_partition data count m :
  ((∀ i, i ∈ compaction IsPaired data count m
         → i ∉ compaction IsUnpaired data count m) ∧
   (∀ i, i ∈ compaction IsAligned data count m
         ↔ i ∈ compaction IsPaired data count m
           ∨ i ∈ compaction IsUnpaired data count m)) ∧
  ((∀ i, i ∈ compaction HasSecondPaired data count m
         → i ∉ compaction HasSecondUnpaired data count m) ∧
   (∀ i, i ∈ compaction HasSecond data count m
         ↔ i ∈ compaction HasSecondPaired data count m
           ∨ i ∈ compaction HasSecondUnpaired data count m)) ∧
  (∀ p, compaction p data count m `sublist_of` seq 0 (Z.to_nat count)
        ∧ NoDup (compaction p data count m)
        ∧ ∀ i, i ∈ compaction p data count m
               ↔ (i < Z.to_nat count)%nat
                 ∧ ∃ b, registry data m !! i = Some b ∧ holds p b = true).
Proof.
  split; [| split].
  - apply compaction_split; intros [[? ? []] ?]; reflexivity.
  - apply compaction_split; intros [? [? ? []]]; reflexivity.
  - intros p. split; [apply copy_if_sublist |].
    split; [apply copy_if_NoDup | intros i; apply elem_of_compaction].
Qed.
End compaction_facts.

(** On the mixed sample batch the opposite-side lists are [0], [1] and
    [0; 1] for both ranks. *)
Lemma C3_paired_unpaired_partition_witness :
  1%nat ∈ Finishing.compaction Finishing.IsAligned Finishing.Opposite 3 Sample.mixed_batch
  ↔ 1%nat ∈ Finishing.compaction Finishing.IsPaired Finishing.Opposite 3 Sample.mixed_batch
    ∨ 1%nat ∈ Finishing.compaction Finishing.IsUnpaired Finishing.Opposite 3 Sample.mixed_batch.
Proof.
  exact (proj2 (proj1 (C3_paired_unpaired_partition Finishing.Opposite 3
                         Sample.mixed_batch)) 1%nat).
Defined.

(** ** Traceback, finishing and output *)

Section finishing_facts.
Import Registry Finishing.
Context {T : Type} `{!Kernels T}.
Variable params : Params.
Implicit Types m : Mem T.

Lemma log_copy_if {B} p data count (k : Z → Run.M (Mem T) Event B) m :
  Run.log (Run.bind (copy_if p data count) k m)
  = (CopyIf p data, m)
    :: Run.log (k (Z.of_nat (length (compaction p data count m)))
                  (set_loc (Thrust.copy (compaction p data count m) (loc m)) m)).
Proof. rewrite log_bind. reflexivity. Qed.

(** What a kernel reads through the index pointer right after a compaction
    is the compacted list. *)
Lemma idx_view_copy_if (r buf : list nat) m :
  idx_view (Z.of_nat (length r)) (set_loc (Thrust.copy r buf) m) = Some r.
Proof. unfold idx_view. cbn [loc set_loc]. by rewrite Nat2Z.id, take_copy. Qed.

(** Walking a finishing stage: every compacted list and every state reached
    gets a name, so that the log comes out as an explicit list of entries. *)
Ltac fin_name_state :=
  try match goal with
      | |- context [Run.log (_ ?st)] =>
          tryif is_var st then fail else (let m := fresh "m" in set (m := st) in * )
      end.

Ltac fin_step :=
  first
    [ rewrite log_copy_if;
      match goal with
      | |- context [(CopyIf ?p ?d, ?m0) :: Run.log _] =>
          let r := fresh "r" in set (r := compaction p d _ m0) in *
      end;
      rewrite log_get, ?idx_view_copy_if; fin_name_state
    | rewrite log_call; fin_name_state
    | rewrite log_emit | rewrite log_call_last | rewrite log_emit_last
    | rewrite log_ret | rewrite log_modify_last
    | run_quiet | rewrite log_bind_assoc | run_branch ].

(** The four facts about the log of a stage that the statements below are
    assembled from: which output call it makes; no launch on an empty
    compacted subset; every backtracking launch is the one the specification
    asks for; every non-empty compacted subset gets its launch. *)
Local Abbreviation stage_facts count call l :=
  (process_calls l = [call]
   ∧ Forall (λ entry, ∀ idx, compacted_subset entry.1 = Some idx → idx ≠ []) l
   ∧ Forall (λ entry, is_traceback entry.1 = true →
        entry.1 = BandedTraceback 0 count None Anchor
        ∨ ∃ p data, spec_traceback p data (compaction p data count entry.2)
                    = Some entry.1) l
   ∧ Run.ForallRest (λ entry rest, ∀ p data ev,
        entry.1 = CopyIf p data →
        compaction p data count entry.2 ≠ [] →
        spec_traceback p data (compaction p data count entry.2) = Some ev →
        ∃ m', (ev, m') ∈ rest) l).

Ltac fin_nonempty :=
  let idx := fresh "idx" in let Hidx := fresh "Hidx" in let Hnil := fresh "Hnil" in
  intros idx Hidx; cbn in Hidx; simplify_eq;
  intros Hnil;
  match goal with
  | Hn : Z.of_nat (length ?r) ≠ 0 |- _ => apply Hn; rewrite Hnil; reflexivity
  end.

Ltac fin_sound :=
  let Htb := fresh "Htb" in
  intros Htb; cbn in Htb; try discriminate Htb;
  first
    [ left; reflexivity
    | right; exists IsPaired, Opposite; reflexivity
    | right; exists IsUnpaired, Opposite; reflexivity
    | right; exists HasSecond, Anchor; reflexivity
    | right; exists HasSecondPaired, Opposite; reflexivity
    | right; exists HasSecondUnpaired, Opposite; reflexivity ].

Ltac fin_complete :=
  let Hev := fresh "Hev" in let Hne := fresh "Hne" in let Hspec := fresh "Hspec" in
  intros ? ? ? Hev Hne Hspec; cbn [fst snd] in Hev, Hne, Hspec;
  try discriminate Hev; injection Hev as <- <-;
  cbn [spec_traceback] in Hspec; try discriminate Hspec; injection Hspec as <-;
  first
    [ solve [eexists; repeat first [apply list_elem_of_here | apply list_elem_of_further]]
    | exfalso; apply Hne; apply nil_length_inv, Nat2Z.inj;
      match goal with
      | Hz : Z.of_nat (length _) = 0 |- _ => exact Hz
      end ].

Ltac fin_solve :=
  split; [reflexivity |];
  split; [repeat (apply List.Forall_cons; [first [fin_nonempty | done] |]);
          apply List.Forall_nil |];
  split; [repeat (apply List.Forall_cons; [fin_sound |]); apply List.Forall_nil |];
  cbn [Run.ForallRest]; repeat (split; [first [fin_complete | done] |]); exact I.

Lemma finish_best_anchor_facts count band m :
  stage_facts count (MATE_1, BEST_SCORE)
    (Run.log (finish_best_anchor params count band m)).
Proof. unfold finish_best_anchor. repeat fin_step. all: fin_solve. Qed.

Lemma finish_best_opposite_facts count band m :
  stage_facts count (MATE_2, BEST_SCORE)
    (Run.log (finish_best_opposite params count band m)).
Proof. unfold finish_best_opposite. repeat fin_step. all: fin_solve. Qed.

Lemma finish_second_anchor_facts count band m :
  stage_facts count (MATE_1, SECOND_BEST_SCORE)
    (Run.log (finish_second_anchor params count band m)).
Proof. unfold finish_second_anchor. repeat fin_step. all: fin_solve. Qed.

Lemma finish_second_opposite_facts count band m :
  stage_facts count (MATE_2, SECOND_BEST_SCORE)
    (Run.log (finish_second_opposite params count band m)).
Proof. unfold finish_second_opposite. repeat fin_step. all: fin_solve. Qed.

(** *** The whole second half of [best_approx] *)

Lemma finish_batch_log count m :
  ∃ m1 m2 m3,
    Run.log (finish_batch params count m)
    = Run.log (finish_best_anchor params count (band_length (max_dist params)) m)
      ++ Run.log (finish_best_opposite params count (band_length (max_dist params)) m1)
      ++ Run.log (finish_second_anchor params count (band_length (max_dist params)) m2)
      ++ Run.log (finish_second_opposite params count (band_length (max_dist params)) m3).
Proof.
  unfold finish_batch. cbv zeta. do 3 eexists.
  rewrite !log_bind. rewrite log_modify_last, app_nil_r. reflexivity.
Qed.

Lemma ForallRest_app {S Ev} (P : Ev * S → Run.Log S Ev → Prop) l1 l2 :
  (∀ x r r', P x r → P x (r ++ r')) →
  Run.ForallRest P l1 → Run.ForallRest P l2 → Run.ForallRest P (l1 ++ l2).
Proof.
  intros Hmono H1 H2. induction l1 as [|x l1 IH]; simpl in *; [done |].
  destruct H1 as [Hx H1]. split; [by apply Hmono | by apply IH].
Qed.

Lemma ForallRest_elem_of {S Ev} (P : Ev * S → Run.Log S Ev → Prop) l x :
  Run.ForallRest P l → x ∈ l → ∃ rest, P x rest ∧ ∀ y, y ∈ rest → y ∈ l.
Proof.
  induction l as [|a l IH]; simpl; intros Hall Hx.
  - by apply not_elem_of_nil in Hx.
  - destruct Hall as [Ha Hall]. apply elem_of_cons in Hx as [-> | Hx].
    + exists l. split; [done |]. intros y Hy. by apply list_elem_of_further.
    + destruct (IH Hall Hx) as (rest & HP & Hsub). exists rest.
      split; [done |]. intros y Hy. by apply list_elem_of_further, Hsub.
Qed.

Lemma finish_batch_facts count m :
  let l := Run.log (finish_batch params count m) in
  process_calls l
  = [(MATE_1, BEST_SCORE); (MATE_2, BEST_SCORE);
     (MATE_1, SECOND_BEST_SCORE); (MATE_2, SECOND_BEST_SCORE)]
  ∧ Forall (λ entry, ∀ idx, compacted_subset entry.1 = Some idx → idx ≠ []) l
  ∧ Forall (λ entry, is_traceback entry.1 = true →
       entry.1 = BandedTraceback 0 count None Anchor
       ∨ ∃ p data, spec_traceback p data (compaction p data count entry.2)
                   = Some entry.1) l
  ∧ Run.ForallRest (λ entry rest, ∀ p data ev,
       entry.1 = CopyIf p data →
       compaction p data count entry.2 ≠ [] →
       spec_traceback p data (compaction p data count entry.2) = Some ev →
       ∃ m', (ev, m') ∈ rest) l.
Proof.
  destruct (finish_batch_log count m) as (m1 & m2 & m3 & ->). cbv zeta.
  set (band := band_length (max_dist params)).
  destruct (finish_best_anchor_facts count band m) as (Hc1 & Hn1 & Hs1 & Hr1).
  destruct (finish_best_opposite_facts count band m1) as (Hc2 & Hn2 & Hs2 & Hr2).
  destruct (finish_second_anchor_facts count band m2) as (Hc3 & Hn3 & Hs3 & Hr3).
  destruct (finish_second_opposite_facts count band m3) as (Hc4 & Hn4 & Hs4 & Hr4).
  assert (∀ (x : Event * Mem T) (r r' : Run.Log (Mem T) Event),
            (∀ p data ev, x.1 = CopyIf p data →
               compaction p data count x.2 ≠ [] →
               spec_traceback p data (compaction p data count x.2) = Some ev →
               ∃ m', (ev, m') ∈ r) →
            ∀ p data ev, x.1 = CopyIf p data →
               compaction p data count x.2 ≠ [] →
               spec_traceback p data (compaction p data count x.2) = Some ev →
               ∃ m', (ev, m') ∈ r ++ r') as Hmono.
  { intros x r r' Hx p data ev He Hne Hspec.
    destruct (Hx p data ev He Hne Hspec) as [m' Hm']. exists m'.
    apply elem_of_app. by left. }
  split; [| split; [| split]].
  - unfold process_calls in *. rewrite !omap_app, Hc1, Hc2, Hc3, Hc4. reflexivity.
  - apply Forall_app; split; [done |].
    apply Forall_app; split; [done |]. by apply Forall_app.
  - apply Forall_app; split; [done |].
    apply Forall_app; split; [done |]. by apply Forall_app.
  - apply ForallRest_app; [exact Hmono | done |].
    apply ForallRest_app; [exact Hmono | done |].
    by apply ForallRest_app.
Qed.

(** The seven compactions are made in every run, whatever the registries
    hold: three for the opposite mates of the best alignments, one for the
    anchors with a second-best alignment, three for the opposite mates of
    the second-best alignments. *)
Ltac fin_present :=
  let Hp := fresh "Hp" in
  intros ? ? Hp;
  repeat (apply elem_of_cons in Hp as [Hp | Hp]);
  [ injection Hp as -> -> .. | by apply elem_of_nil in Hp ];
  eexists; repeat first [apply list_elem_of_here | apply list_elem_of_further].

Lemma finish_best_opposite_compactions count band m :
  ∀ L, Run.log (finish_best_opposite params count band m) = L →
  ∀ p data,
    (p, data) ∈ [(IsPaired, Opposite); (IsUnpaired, Opposite); (IsAligned, Opposite)] →
    ∃ m_c, (CopyIf p data, m_c) ∈ L.
Proof.
  unfold finish_best_opposite. intros L. repeat fin_step. all: intros <-; fin_present.
Qed.

Lemma finish_second_anchor_compactions count band m :
  ∀ L, Run.log (finish_second_anchor params count band m) = L →
  ∀ p data, (p, data) ∈ [(HasSecond, Anchor)] → ∃ m_c, (CopyIf p data, m_c) ∈ L.
Proof.
  unfold finish_second_anchor. intros L. repeat fin_step. all: intros <-; fin_present.
Qed.

Lemma finish_second_opposite_compactions count band m :
  ∀ L, Run.log (finish_second_opposite params count band m) = L →
  ∀ p data,
    (p, data) ∈ [(HasSecondPaired, Opposite); (HasSecondUnpaired, Opposite);
                 (HasSecond, Opposite)] →
    ∃ m_c, (CopyIf p data, m_c) ∈ L.
Proof.
  unfold finish_second_opposite. intros L. repeat fin_step. all: intros <-; fin_present.
Qed.

Lemma finish_batch_compactions count m p data :
  (p, data) ∈ [(IsPaired, Opposite); (IsUnpaired, Opposite); (IsAligned, Opposite);
               (HasSecond, Anchor);
               (HasSecondPaired, Opposite); (HasSecondUnpaired, Opposite);
               (HasSecond, Opposite)] →
  ∃ m_c, (CopyIf p data, m_c) ∈ Run.log (finish_batch params count m).
Proof.
  intros Hp.
  destruct (finish_batch_log count m) as (m1 & m2 & m3 & ->).
  set (band := band_length (max_dist params)).
  assert ((p, data) ∈ [(IsPaired, Opposite); (IsUnpaired, Opposite); (IsAligned, Opposite)]
          ∨ (p, data) ∈ [(HasSecond, Anchor)]
          ∨ (p, data) ∈ [(HasSecondPaired, Opposite); (HasSecondUnpaired, Opposite);
                         (HasSecond, Opposite)]) as [H2 | [H3 | H4]].
  { rewrite !elem_of_cons in Hp. rewrite !elem_of_cons. tauto. }
  - destruct (finish_best_opposite_compactions count band m1 _ eq_refl p data H2)
      as [m_c Hin].
    exists m_c. rewrite !elem_of_app. tauto.
  - destruct (finish_second_anchor_compactions count band m2 _ eq_refl p data H3)
      as [m_c Hin].
    exists m_c. rewrite !elem_of_app. tauto.
  - destruct (finish_second_opposite_compactions count band m3 _ eq_refl p data H4)
      as [m_c Hin].
    exists m_c. rewrite !elem_of_app. tauto.
Qed.

(** C4. Whatever the registries hold, the log of the second half of
    [best_approx] has exactly four calls of the output sink: (mate 1, best),
    (mate 2, best), (mate 1, second-best), (mate 2, second-best), in this
    order. No kernel is launched on an empty compacted subset, so an empty
    subset costs its stage the backtracking and finishing work but not the
    output call. *)
Theorem C4_four_output_batches count m :
  process_calls (Run.log (finish_batch params count m))
  = [(MATE_1, BEST_SCORE); (MATE_2, BEST_SCORE);
     (MATE_1, SECOND_BEST_SCORE); (MATE_2, SECOND_BEST_SCORE)]
  ∧ ∀ e m' idx,
      (e, m') ∈ Run.log (finish_batch params count m) →
      compacted_subset e = Some idx → idx ≠ [].
Proof.
  destruct (finish_batch_facts count m) as (Hcalls & Hnonempty & _).
  split; [exact Hcalls |].
  intros e m' idx Hin. rewrite Forall_forall in Hnonempty.
  exact (Hnonempty (e, m') Hin idx).
Qed.


(** *** The transcript buffers *)

(** The third stage clears the buffers inside its test on [n_second]: with
    no second-best anchor alignment in the batch, the output call for
    (mate 1, second-best) is handed the buffers as the stage found them. *)
Lemma finish_second_anchor_keeps_transcripts count band m :
  compaction HasSecond Anchor count m = [] →
  emitted_batches (Run.log (finish_second_anchor params count band m))
  = [(MATE_1, SECOND_BEST_SCORE, cigar m, mds m)].
Proof.
  intros Hnone. unfold finish_second_anchor.
  rewrite log_copy_if, log_get, Hnone.
  cbn [length Z.of_nat]. rewrite bool_decide_eq_true_2 by done.
  cbn [negb]. rewrite log_when_false, log_emit_last. reflexivity.
Qed.

(** The other three stages clear them first thing. *)
Lemma finish_stages_clear_first count band m :
  (∃ rest, Run.log (finish_best_anchor params count band m)
           = (ClearTranscripts, m) :: rest) ∧
  (∃ rest, Run.log (finish_best_opposite params count band m)
           = (ClearTranscripts, m) :: rest) ∧
  (∃ rest, Run.log (finish_second_opposite params count band m)
           = (ClearTranscripts, m) :: rest).
Proof.
  split; [| split].
  - unfold finish_best_anchor. rewrite log_call. eauto.
  - unfold finish_best_opposite. rewrite log_call. eauto.
  - unfold finish_second_opposite. rewrite log_call. eauto.
Qed.
End finishing_facts.

(** On the mixed sample batch every subset is non-empty and all launches
    take place. *)
Lemma C4_four_output_batches_witness :
  Finishing.process_calls
    (Run.log (Finishing.finish_batch (Sample.budget 1) 3 Sample.mixed_batch))
  = [(Finishing.MATE_1, Finishing.BEST_SCORE); (Finishing.MATE_2, Finishing.BEST_SCORE);
     (Finishing.MATE_1, Finishing.SECOND_BEST_SCORE);
     (Finishing.MATE_2, Finishing.SECOND_BEST_SCORE)].
Proof.
  exact (proj1 (C4_four_output_batches (Sample.budget 1) 3 Sample.mixed_batch)).
Defined.


(** C6 at a batch of two reads, both aligned with their mates and neither
    with a second-best alignment, with kernels that append one transcript
    per read of their subset: the batch emitted for (mate 1, second-best)
    carries the transcripts the second stage computed for the opposite
    mates, where the claim wants buffers cleared at the start of the stage. *)
Theorem C6_second_best_batch_keeps_previous_transcripts :
  Finishing.emitted_batches
    (Run.log (Finishing.finish_batch (Sample.budget 1) 2 Sample.no_second_batch))
  = [(Finishing.MATE_1, Finishing.BEST_SCORE,
      [(Finishing.Anchor, 0, 0); (Finishing.Anchor, 0, 1)]%nat,
      [(Finishing.Anchor, 0, 0); (Finishing.Anchor, 0, 1)]%nat);
     (Finishing.MATE_2, Finishing.BEST_SCORE,
      [(Finishing.Opposite, 0, 0); (Finishing.Opposite, 0, 1)]%nat,
      [(Finishing.Opposite, 0, 0); (Finishing.Opposite, 0, 1)]%nat);
     (Finishing.MATE_1, Finishing.SECOND_BEST_SCORE,
      [(Finishing.Opposite, 0, 0); (Finishing.Opposite, 0, 1)]%nat,
      [(Finishing.Opposite, 0, 0); (Finishing.Opposite, 0, 1)]%nat);
     (Finishing.MATE_2, Finishing.SECOND_BEST_SCORE, [], [])].
Proof. vm_compute. reflexivity. Qed.

(** * Further properties of the driver *)

(** ** Whole runs, statement by statement *)

Section run_whole.
Context {S Ev : Type}.
Implicit Types s : S.

Lemma bind_ret {A B} (a : A) (k : A → Run.M S Ev B) s :
  Run.bind (Run.ret a) k s = k a s.
Proof. unfold Run.bind, Run.ret. by destruct (k a s) as [[b s2] l2]. Qed.

Lemma bind_get {B} (k : S → Run.M S Ev B) s : Run.bind Run.get k s = k s s.
Proof. unfold Run.bind, Run.get. by destruct (k s s) as [[b s2] l2]. Qed.

Lemma bind_modify {B} (f : S → S) (k : unit → Run.M S Ev B) s :
  Run.bind (Run.modify f) k s = k tt (f s).
Proof. unfold Run.bind, Run.modify. by destruct (k tt (f s)) as [[b s2] l2]. Qed.

Lemma bind_call {B} (e : Ev) (f : S → S) (k : unit → Run.M S Ev B) s :
  Run.bind (Run.call e f) k s = Run.after [(e, s)] (k tt (f s)).
Proof.
  unfold Run.bind, Run.call, Run.after. by destruct (k tt (f s)) as [[b s2] l2].
Qed.

Lemma bind_fetch {A B} (e : Ev) (f : S → A) (k : A → Run.M S Ev B) s :
  Run.bind (Run.fetch e f) k s = Run.after [(e, s)] (k (f s) s).
Proof.
  unfold Run.bind, Run.fetch, Run.after. by destruct (k (f s) s) as [[b s2] l2].
Qed.

Lemma bind_emit {B} (e : Ev) (k : unit → Run.M S Ev B) s :
  Run.bind (Run.emit e) k s = Run.after [(e, s)] (k tt s).
Proof.
  unfold Run.bind, Run.emit, Run.after. by destruct (k tt s) as [[b s2] l2].
Qed.

Lemma bind_when_false {B} (c : Run.M S Ev unit) (k : unit → Run.M S Ev B) s :
  Run.bind (Run.when false c) k s = k tt s.
Proof. apply (bind_ret tt). Qed.

Lemma bind_assoc {A B C} (c : Run.M S Ev A) (k1 : A → Run.M S Ev B)
    (k2 : B → Run.M S Ev C) s :
  Run.bind (Run.bind c k1) k2 s = Run.bind c (λ a, Run.bind (k1 a) k2) s.
Proof.
  unfold Run.bind. destruct (c s) as [[a s1] l1].
  destruct (k1 a s1) as [[b s2] l2]. destruct (k2 b s2) as [[c' s3] l3].
  by rewrite app_assoc.
Qed.

Lemma log_after {A} l (r : A * S * Run.Log S Ev) :
  Run.log (Run.after l r) = l ++ Run.log r.
Proof. reflexivity. Qed.

Lemma final_after {A} l (r : A * S * Run.Log S Ev) :
  Run.final (Run.after l r) = Run.final r.
Proof. reflexivity. Qed.

Lemma result_after {A} l (r : A * S * Run.Log S Ev) :
  Run.result (Run.after l r) = Run.result r.
Proof. reflexivity. Qed.
End run_whole.

(** Walking a driver body on the run itself: each launch is split off with
    [Run.after], each state reached gets a name, each test of the host code
    is followed into both arms. *)
Ltac whole_name_state :=
  try match goal with
      | |- context [Run.after [(_, _)] (Run.bind _ _ ?st)] =>
          tryif is_var st then fail else (let s := fresh "s" in set (s := st) in * )
      | |- context [Run.after [(_, _)] (Run.ret _ ?st)] =>
          tryif is_var st then fail else (let s := fresh "s" in set (s := st) in * )
      | |- context [Run.bind _ _ ?st] =>
          tryif is_var st then fail else (let s := fresh "s" in set (s := st) in * )
      | |- context [Run.ret _ ?st] =>
          tryif is_var st then fail else (let s := fresh "s" in set (s := st) in * )
      end.

Ltac whole_branch :=
  match goal with
  | |- context [Run.bind (Run.when (negb (bool_decide ?P)) _) _ _] =>
      destruct (bool_decide_reflect P); cbn [negb]
  | |- context [Run.bind (Run.when (bool_decide ?P) _) _ _] =>
      destruct (bool_decide_reflect P)
  | |- context [(if bool_decide ?P then _ else _) _] =>
      destruct (bool_decide_reflect P)
  | |- context [Run.bind (if bool_decide ?P then _ else _) _ _] =>
      destruct (bool_decide_reflect P)
  end.

Ltac whole_step :=
  first
    [ rewrite bind_call; whole_name_state
    | rewrite bind_fetch
    | rewrite bind_emit
    | rewrite bind_modify; whole_name_state
    | rewrite bind_get | rewrite bind_ret | rewrite bind_when_false
    | progress change (Run.when true ?c) with c
    | rewrite bind_assoc
    | whole_branch ].


Lemma bind_after {S Ev A B} (c : Run.M S Ev A) (k : A → Run.M S Ev B) (s : S) :
  Run.bind c k s
  = Run.after (Run.log (c s)) (k (Run.result (c s)) (Run.final (c s))).
Proof.
  unfold Run.bind, Run.after, Run.log, Run.result, Run.final.
  destruct (c s) as [[a s1] l1]. cbn [fst snd].
  by destruct (k a s1) as [[b s2] l2].
Qed.

Lemma snoc_split_step {A} (x : A) rest l y :
  rest = l ++ [y] → x :: rest = (x :: l) ++ [y].
Proof. by intros ->. Qed.

(** Splitting the last entry off a list that is written out. *)
Ltac snoc_split :=
  repeat first [ refine (eq_refl ([] ++ [_])) | eapply snoc_split_step ].

(** ** More on the extension and scoring loop *)

Section scoring_more.
Import Scoring.
Context {X : Type} `{!Kernels X}.
Variable BATCH_SIZE : Z.
Variable worst_score : Z.
Variable params : Params.

Local Abbreviation round := (extension_round BATCH_SIZE worst_score params).
Local Abbreviation loop := (extension_loop BATCH_SIZE worst_score params).
Local Abbreviation score := (best_approx_score BATCH_SIZE worst_score params).

(** Reading a field of a named state through the statement that made it. *)
Ltac state_simpl :=
  repeat match goal with
         | |- context [n_ext ?x] =>
             is_var x; let b := eval cbv delta [x] in x in
             progress change (n_ext x) with (n_ext b)
         | |- context [pipeline ?x] =>
             is_var x; let b := eval cbv delta [x] in x in
             progress change (pipeline x) with (pipeline b)
         | |- context [dev ?x] =>
             is_var x; let b := eval cbv delta [x] in x in
             progress change (dev x) with (dev b)
         | _ => progress cbn [n_ext pipeline dev extension_pass on_dev on_pipeline
                              set_n_ext set_extension_pass set_n_hits_per_read
                              set_hits_queue_size set_idx_queue set_opposite_queue_size
                              n_hits_per_read hits_queue_size idx_queue opposite_queue_size
                              compact_opposite fill_opposite_score]
         end.

Ltac round_walk :=
  unfold extension_round; repeat whole_step;
  rewrite ?log_after, ?final_after, ?result_after;
  cbn [Run.log Run.final Run.result Run.ret fst snd app].

(** *** The loop, one round at a time *)

Lemma extension_loop_step fuel s :
  in_size (dev s) ≠ 0 →
  loop (S fuel) s
  = if Run.result (round s) then round s
    else Run.after (Run.log (round s))
           (loop fuel (next_extension_pass (Run.final (round s)))).
Proof.
  intros Hin. cbn [extension_loop]. rewrite bool_decide_eq_false_2 by done.
  rewrite bind_after. destruct (round s) as [[[] s'] l] eqn:Hr.
  - cbn [Run.result Run.final Run.log fst snd].
    unfold Run.after, Run.ret. cbn [fst snd]. by rewrite app_nil_r.
  - cbn [Run.result Run.final Run.log fst snd]. by rewrite bind_modify.
Qed.

Lemma extension_loop_stop fuel s :
  in_size (dev s) = 0 → loop fuel s = (true, s, []).
Proof. intros Hin. destruct fuel; simpl; by rewrite bool_decide_eq_true_2. Qed.

(** Whatever holds of the launches of a round that starts with reads in
    the queue holds of every launch of the loop: the loop enters no other
    round. *)
Lemma extension_loop_Forall_entered (P : Event * State X → Prop) :
  (∀ s, in_size (dev s) ≠ 0 → Forall P (Run.log (round s))) →
  ∀ fuel s, Forall P (Run.log (loop fuel s)).
Proof.
  intros Hround. induction fuel as [|fuel IH]; intros s.
  - simpl. destruct (bool_decide _); constructor.
  - destruct (decide (in_size (dev s) = 0)) as [Hz | Hnz].
    + rewrite extension_loop_stop by done. constructor.
    + rewrite extension_loop_step by done.
      destruct (Run.result (round s)); [by apply Hround |].
      rewrite log_after. apply Forall_app. split; [by apply Hround | apply IH].
Qed.

Lemma best_approx_score_run fuel n q s :
  let s1 := on_dev (resize n) s in
  let s2 := set_n_ext 0 (on_dev (pack_reads params n q) s1) in
  let s3 := set_extension_pass 0 (on_dev (select_init (pipeline s2) params) s2) in
  score fuel n q s
  = Run.after [(Resize, s); (PackReads, s1); (SelectInit, s2)] (loop fuel s3).
Proof.
  cbv zeta. unfold best_approx_score.
  rewrite bind_call, bind_call, bind_modify, bind_call, bind_modify.
  reflexivity.
Qed.

Lemma best_approx_score_Forall_entered (P : Event * State X → Prop) :
  (∀ s, in_size (dev s) ≠ 0 → Forall P (Run.log (round s))) →
  (∀ s, P (Resize, s)) → (∀ s, P (PackReads, s)) → (∀ s, P (SelectInit, s)) →
  ∀ fuel n q s, Forall P (Run.log (score fuel n q s)).
Proof.
  intros Hround H1 H2 H3 fuel n q s.
  rewrite best_approx_score_run, log_after.
  repeat (constructor; [done |]). by apply extension_loop_Forall_entered.
Qed.

(** *** The order of the launches *)

Lemma extension_round_launches s :
  ∃ r, (Run.log (round s)).*1 = round_launches r
       ∧ (Run.result (round s) = true ↔ r = Break).
Proof.
  round_walk.
  all: first
    [ by exists Break
    | exists Skip; split; [reflexivity | by split]
    | exists (Scored true true); split; [reflexivity | by split]
    | exists (Scored true false); split; [reflexivity | by split]
    | exists (Scored false true); split; [reflexivity | by split]
    | exists (Scored false false); split; [reflexivity | by split] ].
Qed.

Lemma extension_loop_launches fuel s :
  ∃ rounds,
    (Run.log (loop fuel s)).*1 = rounds ≫= round_launches
    ∧ (length rounds ≤ fuel)%nat
    ∧ (∀ i, rounds !! i = Some Break → S i = length rounds)
    ∧ (Run.result (loop fuel s) = false → length rounds = fuel).
Proof.
  revert s. induction fuel as [|fuel IH]; intros s.
  - exists []. simpl. destruct (bool_decide _); repeat split; try done.
  - destruct (decide (in_size (dev s) = 0)) as [Hz | Hnz].
    { rewrite extension_loop_stop by done. exists [].
      repeat split; try done. simpl. lia. }
    rewrite extension_loop_step by done.
    destruct (extension_round_launches s) as (r & Hr & Hbreak).
    destruct (Run.result (round s)) eqn:Hres.
    + exists [r]. rewrite Hr. cbn [mbind list_bind]. rewrite app_nil_r.
      repeat split; [simpl; lia | | by rewrite Hres].
      intros [|i] Hi; [done | cbn in Hi; by destruct i].
    + destruct (IH (next_extension_pass (Run.final (round s))))
        as (rounds & Hrounds & Hlen & Hlast & Hfuel).
      exists (r :: rounds). rewrite log_after, fmap_app, Hr, Hrounds.
      repeat split; [simpl; lia | | ].
      * intros [|i] Hi; simpl in *.
        -- injection Hi as ->. destruct Hbreak as [_ Hb]. by specialize (Hb eq_refl).
        -- f_equal. by apply Hlast.
      * rewrite result_after. intros Hf. simpl. f_equal. by apply Hfuel.
Qed.

(** X1. The launches of [best_approx_score] are the three of its prologue
    followed by those of its rounds, each round being one of three shapes in
    the order of the loop body: the four launches up to the swap when the
    loop is left at the [break]; these and the read-back of the hit counter
    when the round ends at the [continue]; or the whole sequence down to the
    reduction, with the read-back of the hit counter and the scoring of the
    opposite mates each present or not. Only the last round can be the one
    that ends at the [break], and the [continue] is taken only after the hit
    counter was read back. *)
Theorem X1_launch_order fuel n q s :
  ∃ rounds,
    (Run.log (score fuel n q s)).*1
    = [Resize; PackReads; SelectInit] ++ (rounds ≫= round_launches)
    ∧ (length rounds ≤ fuel)%nat
    ∧ (∀ i, rounds !! i = Some Break → S i = length rounds)
    ∧ (Run.result (score fuel n q s) = false → length rounds = fuel).
Proof.
  rewrite best_approx_score_run, log_after, result_after.
  match goal with
  | |- context [loop fuel ?s3] =>
      destruct (extension_loop_launches fuel s3)
        as (rounds & Hrounds & Hlen & Hlast & Hfuel)
  end.
  exists rounds. rewrite fmap_app, Hrounds. done.
Qed.

(** *** The count of extensions *)

Lemma extension_round_summary s :
  ∃ (l tail : Run.Log (State X) Event),
    Run.log (round s) = l ++ tail ∧
    Forall (λ e, e.1 ≠ ScoreReduce ∧ n_ext e.2 = n_ext s) l ∧
    ((tail = [] ∧ n_ext (Run.final (round s)) = n_ext s) ∨
     (∃ s', tail = [(ScoreReduce, s')] ∧ n_ext s' = n_ext s ∧
            n_ext (Run.final (round s))
            = UInt32.add (n_ext s) (n_hits_per_read (pipeline s')))).
Proof.
  round_walk.
  all: first
    [ eexists _, [_]; split; [snoc_split |]; split;
        [| right; eexists; split; [reflexivity |]; by state_simpl ]
    | eexists _, []; split; [symmetry; apply app_nil_r |]; split;
        [| left; split; [reflexivity | by state_simpl] ] ].
  all: repeat (apply List.Forall_cons; [split; [discriminate | by state_simpl] |]).
  all: apply List.Forall_nil.
Qed.

Lemma extended_nil (l : Run.Log (State X) Event) :
  Forall (λ e, e.1 ≠ ScoreReduce) l → extended l = [].
Proof.
  induction 1 as [|[e s] l He _ IH]; [done |].
  unfold extended in *. cbn [omap list_omap]. rewrite IH.
  unfold extended_by. cbn [fst] in *. by destruct e.
Qed.

Lemma extension_round_n_ext s :
  (∀ i entry, Run.log (round s) !! i = Some entry →
     n_ext entry.2 = n_ext s ∧ extended (take i (Run.log (round s))) = []) ∧
  foldl UInt32.add (n_ext s) (extended (Run.log (round s)))
  = n_ext (Run.final (round s)).
Proof.
  destruct (extension_round_summary s) as (l & tail & -> & Hl & Htail).
  assert (extended l = []) as Hnone.
  { apply extended_nil. eapply Forall_impl; [exact Hl |]. by intros ? [? _]. }
  assert (∀ i, extended (take i l) = []) as Hnone_take.
  { intros i. apply extended_nil. apply Forall_take.
    eapply Forall_impl; [exact Hl |]. by intros ? [? _]. }
  unfold Run.Log in *. split.
  - intros i entry Hi.
    destruct (decide (i < length l)%nat) as [Hlt | Hge].
    + rewrite lookup_app_l in Hi by done.
      rewrite take_app_le by lia. split; [| done].
      rewrite Forall_lookup in Hl. by destruct (Hl i entry Hi).
    + rewrite lookup_app_r in Hi by lia.
      destruct Htail as [[-> _] | (s' & -> & Hs' & _)]; [done |].
      destruct (i - length l)%nat eqn:Hd; [| done].
      injection Hi as <-. split; [done |].
      replace i with (length l) by lia.
      by rewrite take_app_length.
  - unfold extended in *. rewrite omap_app, foldl_app, Hnone. cbn [foldl].
    destruct Htail as [[-> ->] | (s' & -> & _ & ->)]; reflexivity.
Qed.

Lemma extension_loop_n_ext fuel s :
  (∀ i entry, Run.log (loop fuel s) !! i = Some entry →
     n_ext entry.2
     = foldl UInt32.add (n_ext s) (extended (take i (Run.log (loop fuel s))))) ∧
  n_ext (Run.final (loop fuel s))
  = foldl UInt32.add (n_ext s) (extended (Run.log (loop fuel s))).
Proof.
  revert s. induction fuel as [|fuel IH]; intros s.
  { simpl. by destruct (bool_decide _). }
  destruct (decide (in_size (dev s) = 0)) as [Hz | Hnz].
  { by rewrite extension_loop_stop. }
  rewrite extension_loop_step by done.
  destruct (extension_round_n_ext s) as [Hin Hout].
  destruct (Run.result (round s)).
  { split; [| done]. intros i entry Hi.
    destruct (Hin i entry Hi) as [-> ->]. reflexivity. }
  set (s' := next_extension_pass (Run.final (round s))).
  assert (n_ext s' = n_ext (Run.final (round s))) as Hs' by reflexivity.
  destruct (IH s') as [IHin IHout].
  rewrite log_after, final_after. unfold Run.Log in *. split.
  - intros i entry Hi.
    destruct (decide (i < length (Run.log (round s)))%nat) as [Hlt | Hge].
    + rewrite lookup_app_l in Hi by done. rewrite take_app_le by lia.
      destruct (Hin i entry Hi) as [-> ->]. reflexivity.
    + rewrite lookup_app_r in Hi by lia. rewrite take_app_ge by lia.
      unfold extended in *. rewrite omap_app, foldl_app, Hout, <- Hs'.
      by apply IHin.
  - unfold extended in *. rewrite omap_app, foldl_app, Hout, <- Hs'. exact IHout.
Qed.

(** X2. The count of extensions is kept by the host alone and moves once
    per round, as the last statement of the body: whenever a launch of
    [best_approx_score] after the packing of the reads takes place, the
    count is the sum (in 32-bit arithmetic, from zero) of the hits per read
    of the reductions launched before it, so a round that ends at the
    [break] or at the [continue] leaves it as it was. *)
Theorem X2_extension_count fuel n q s0 i e s :
  Run.log (score fuel n q s0) !! i = Some (e, s) →
  (2 ≤ i)%nat →
  n_ext s = foldl UInt32.add 0 (extended (take i (Run.log (score fuel n q s0)))).
Proof.
  rewrite best_approx_score_run, log_after. cbv zeta.
  intros Hi Hge.
  destruct i as [|[|[|i]]]; [lia | lia | |].
  - injection Hi as <- <-. reflexivity.
  - cbn [app lookup list_lookup] in Hi. cbn [app take].
    change (extended (?a :: ?b :: ?c :: ?l)) with (extended l).
    match type of Hi with
    | Run.log (loop fuel ?s3) !! _ = _ =>
        destruct (extension_loop_n_ext fuel s3) as [Hin _];
        exact (Hin i (e, s) Hi)
    end.
Qed.

(** *** What the kernels are launched on *)

Lemma extension_round_work_size s :
  in_size (dev s) ≠ 0 →
  Forall (λ entry, ∀ n, work_size entry = Some n → n ≠ 0) (Run.log (round s)).
Proof.
  intros Hin. round_walk.
  all: repeat (apply List.Forall_cons;
         [intros ? [= <-]; cbn [snd]; state_simpl;
            cbn [in_size set_aux clear_output]; assumption |]).
  all: apply List.Forall_nil.
Qed.

(** X3. No kernel of the loop of [best_approx_score] is launched on zero
    work items: the hit index is set up and the hits are selected only with
    reads in the active queue (so the batching policy never divides by
    zero), the locate, score and reduce stages run only with selected hits,
    and the opposite mates are scored only when the compaction found a
    candidate. *)
Theorem X3_no_empty_launch fuel n q s0 i entry k :
  Run.log (score fuel n q s0) !! i = Some entry →
  work_size entry = Some k →
  k ≠ 0.
Proof.
  intros Hi. revert k.
  assert (Forall (λ entry, ∀ k, work_size entry = Some k → k ≠ 0)
            (Run.log (score fuel n q s0))) as Hall.
  { apply best_approx_score_Forall_entered;
      [apply extension_round_work_size | by intros ? ? [=] ..]. }
  rewrite Forall_lookup in Hall. exact (Hall i entry Hi).
Qed.

(** *** The size of a selection *)

Lemma extension_round_capacity s :
  Forall (λ entry, entry.1 = Select →
    let Q := in_size (dev entry.2) in
    let h := n_hits_per_read (pipeline entry.2) in
    h ≤ 4096 ∧
    (0 < Q ≤ BATCH_SIZE → h * Q ≤ BATCH_SIZE) ∧
    (0 < Q → 0 ≤ BATCH_SIZE → 0 ≤ h))
   (Run.log (round s)).
Proof.
  round_walk.
  all: repeat (apply List.Forall_cons; [intros [=] |]).
  all: try apply List.Forall_nil.
  all: cbn [snd]; cbv zeta; state_simpl; cbn [in_size set_aux clear_output].
  all: unfold UInt32.div, UInt32.sub, UInt32.wrap, UInt32.modulus in *.
  all: try change (in_size (dev s1)) with (in_size (dev s)) in *.
  all: set (Q := in_size (dev s)) in *.
  all: set (budget := (max_ext params - n_ext s) `mod` 2 ^ 32).
  all: try (assert (0 ≤ budget) by (apply Z.mod_pos_bound; lia)).
  all: repeat split; try lia.
  all: try (intros [HQ _];
            pose proof (Z.mul_div_le BATCH_SIZE Q HQ);
            assert (Z.min (BATCH_SIZE `div` Q) (Z.min 4096 budget) ≤ BATCH_SIZE `div` Q)
              by lia; nia).
  all: intros HQ HC; pose proof (Z.div_pos BATCH_SIZE Q HC HQ); lia.
Qed.

(** X4. A selection is never asked for more hits than a batch holds: when
    the selection kernel is launched on [Q] active reads that fit a batch
    ([0 < Q <= BATCH_SIZE]), the hits per read [h] it is given satisfy
    [h * Q <= BATCH_SIZE]; and [h] never exceeds the 4096 that the 12 bits
    of the extension index can tell apart. *)
Theorem X4_selection_fits_batch fuel n q s0 i s :
  Run.log (score fuel n q s0) !! i = Some (Select, s) →
  n_hits_per_read (pipeline s) ≤ 4096 ∧
  (0 < in_size (dev s) ≤ BATCH_SIZE →
     n_hits_per_read (pipeline s) * in_size (dev s) ≤ BATCH_SIZE) ∧
  (0 < in_size (dev s) → 0 ≤ BATCH_SIZE → 0 ≤ n_hits_per_read (pipeline s)).
Proof.
  intros Hi.
  apply (best_approx_score_Forall _ _ _ _ extension_round_capacity) in Hi;
    [exact Hi | first [reflexivity | intros ? [=]] ..].
Qed.

(** *** The budget of extensions *)

(** X5. The budget [max_ext] is consulted in the rounds that select several
    hits per read and in no other: such a round, started within the budget,
    ends within it; a round that finds more than half a batch of active
    reads selects one hit per read and, if it gets to the reduction, counts
    one more extension whatever the budget. *)
Theorem X5_budget_in_multi_hit_rounds s :
  (0 ≤ BATCH_SIZE → 0 < in_size (dev s) ≤ BATCH_SIZE `div` 2 →
   0 ≤ n_ext s ≤ max_ext params → max_ext params < 2 ^ 32 →
   n_ext s ≤ n_ext (Run.final (round s)) ≤ max_ext params) ∧
  (BATCH_SIZE `div` 2 < in_size (dev s) →
   n_ext (Run.final (round s)) = n_ext s ∨
   n_ext (Run.final (round s)) = UInt32.add (n_ext s) 1).
Proof.
  round_walk.
  all: state_simpl; cbn [in_size set_aux clear_output].
  all: try change (in_size (dev s1)) with (in_size (dev s)) in *.
  all: unfold UInt32.div in *.
  all: split; [intros HC HQ Hn Hmax | intros HQ]; try lia.
  all: try (by left); try (by right).
  all: rewrite (uint32_sub_no_borrow (max_ext params) (n_ext s)) by (unfold UInt32.modulus; lia).
  all: pose proof (Z.div_pos BATCH_SIZE (in_size (dev s)) HC (proj1 HQ)).
  all: unfold UInt32.add; rewrite uint32_wrap_small by (unfold UInt32.modulus; lia).
  all: lia.
Qed.

(** *** The candidates for the opposite scoring *)

Lemma elem_of_opposite_candidates p (d : Device X) t :
  t ∈ opposite_candidates worst_score p d
  ↔ (t < Z.to_nat (hits_queue_size p))%nat
    ∧ ∃ h v, idx_queue p !! t = Some h ∧ hits_score d !! h = Some v
             ∧ v ≠ worst_score.
Proof.
  unfold opposite_candidates. rewrite elem_of_copy_if.
  unfold Thrust.selected, gathered_score, not_worst.
  split; intros [Hlt Hsel]; (split; [exact Hlt |]).
  - destruct (idx_queue p !! t) as [h|]; [| done]. cbn in Hsel.
    destruct (hits_score d !! h) as [v|] eqn:Hv; [| done]. cbn in Hsel.
    exists h, v. apply negb_true_iff, Z.eqb_neq in Hsel. done.
  - destruct Hsel as (h & v & -> & Hv & Hne). cbn. rewrite Hv. cbn.
    by apply negb_true_iff, Z.eqb_neq.
Qed.

Lemma compact_fill_view (s : State X) :
  let s' := fill_opposite_score worst_score (compact_opposite worst_score s) in
  take (Z.to_nat (opposite_queue_size (pipeline s'))) (opposite_queue_dvec (dev s'))
  = opposite_candidates worst_score (pipeline s') (dev s')
  ∧ opposite_queue_size (pipeline s')
    = Z.of_nat (length (opposite_candidates worst_score (pipeline s') (dev s'))).
Proof.
  cbn. rewrite Nat2Z.id. split; [apply take_copy | reflexivity].
Qed.

Lemma extension_round_opposite_launch s :
  Forall (λ entry, entry.1 = OppositeScore →
    let p := pipeline entry.2 in
    let d := dev entry.2 in
    opposite_queue_size p ≠ 0
    ∧ take (Z.to_nat (opposite_queue_size p)) (opposite_queue_dvec d)
      = opposite_candidates worst_score p d
    ∧ opposite_queue_size p
      = Z.of_nat (length (opposite_candidates worst_score p d)))
   (Run.log (round s)).
Proof.
  round_walk.
  all: repeat (apply List.Forall_cons; [first [by intros [=] | intros _] |]).
  all: try apply List.Forall_nil.
  all: cbn [snd]; cbv zeta; (split; [assumption |]).
  all: match goal with
       | s12 := fill_opposite_score _ ?s11, s11' := compact_opposite _ ?s10 |- _ =>
           exact (compact_fill_view s10)
       end.
Qed.

(** X6. What the opposite-mate scoring is launched on: its work items, the
    first [opposite_queue_size] cells of the opposite queue, are the
    positions of the sorted hit queue whose anchor score differs from the
    worst score - all of them, each once and in increasing order, none out
    of the range of the selected hits - so their number is positive and at
    most [hits_queue_size]. *)
Theorem X6_opposite_candidates fuel n q s0 i s :
  Run.log (score fuel n q s0) !! i = Some (OppositeScore, s) →
  let p := pipeline s in
  let d := dev s in
  let live := take (Z.to_nat (opposite_queue_size p)) (opposite_queue_dvec d) in
  live `sublist_of` seq 0 (Z.to_nat (hits_queue_size p))
  ∧ (∀ t, t ∈ live ↔
       (t < Z.to_nat (hits_queue_size p))%nat
       ∧ ∃ h v, idx_queue p !! t = Some h ∧ hits_score d !! h = Some v
                ∧ v ≠ worst_score)
  ∧ Z.of_nat (length live) = opposite_queue_size p
  ∧ 0 < opposite_queue_size p ≤ hits_queue_size p.
Proof.
  intros Hi.
  apply (best_approx_score_Forall _ _ _ _ extension_round_opposite_launch) in Hi;
    [| first [reflexivity | intros ? [=]] ..].
  cbn [snd] in Hi. cbv zeta in *. destruct Hi as (Hnz & Hlive & Hsize).
  rewrite Hlive.
  pose proof (copy_if_sublist (Z.to_nat (hits_queue_size (pipeline s)))
                (gathered_score (pipeline s) (dev s)) (not_worst worst_score)) as Hsub.
  fold (opposite_candidates worst_score (pipeline s) (dev s)) in Hsub.
  split; [exact Hsub |].
  split; [intros t; apply elem_of_opposite_candidates |].
  split; [by rewrite Hsize |].
  apply sublist_length in Hsub. rewrite length_seq in Hsub. lia.
Qed.

(** *** The prologue *)

(** X7. When the selection is initialised, the first [seed_queue_size]
    cells of the input queue hold the reads of the seed queue in their
    order, each packed with [top_seed]; the cells of the buffer beyond them
    are as they were. *)
Theorem X7_packed_reads fuel n q s0 :
  (Z.to_nat n ≤ length q)%nat →
  ∃ s1 s2 rest,
    Run.log (score fuel n q s0)
    = (Resize, s0) :: (PackReads, s1) :: (SelectInit, s2) :: rest
    ∧ (∀ j r, (j < Z.to_nat n)%nat → q !! j = Some r →
         in_queue (dev s2) !! j = Some (pack_read (top_seed params) r))
    ∧ drop (Z.to_nat n) (in_queue (dev s2)) = drop (Z.to_nat n) (in_queue (dev s1)).
Proof.
  intros Hlen. rewrite best_approx_score_run. cbv zeta. do 3 eexists.
  split; [reflexivity |].
  cbn [dev on_dev set_n_ext pack_reads in_queue resize].
  set (src := pack_read (top_seed params) <$> take (Z.to_nat n) q).
  assert (length src = Z.to_nat n) as Hsrc.
  { unfold src. rewrite length_fmap, length_take. lia. }
  unfold Thrust.copy. rewrite Hsrc. split.
  - intros j r Hj Hr. rewrite lookup_app_l by lia.
    unfold src. rewrite list_lookup_fmap, lookup_take_lt by lia. by rewrite Hr.
  - rewrite drop_app_length'; done.
Qed.
End scoring_more.

Section scoring_more_runs.
Import Scoring.

(** Three reads, a batch of eight and a budget of five extensions: the
    first round selects two hits per read, the second three; the third round
    is entered with five extensions counted. *)
Lemma X2_extension_count_witness :
  n_ext (Sample.state_at (Sample.score_run 8 (Sample.budget 5) 3) 31) = 5.
Proof.
  refine (eq_trans
    (X2_extension_count 8 Sample.worst_score (Sample.budget 5)
       4 3 (seqZ 0 3) (enter (Sample.device 3)) 31 ClearOutput
       (Sample.state_at (Sample.score_run 8 (Sample.budget 5) 3) 31) _ _) _).
  - vm_compute. reflexivity.
  - vm_compute. lia.
  - vm_compute. reflexivity.
Defined.

(** In the first round of the sample run the opposite mates are scored,
    on a queue that is not empty. *)
Lemma X3_no_empty_launch_witness :
  opposite_queue_size
    (pipeline (Sample.state_at (Sample.score_run 2 (Sample.budget 1) 3) 14)) ≠ 0.
Proof.
  refine (X3_no_empty_launch 2 Sample.worst_score (Sample.budget 1)
            4 3 (seqZ 0 3) (enter (Sample.device 3)) 14
            (OppositeScore, Sample.state_at (Sample.score_run 2 (Sample.budget 1) 3) 14)
            _ _ _).
  - vm_compute. reflexivity.
  - reflexivity.
Defined.

(** Three reads and a batch of eight: two hits per read, six hits. *)
Lemma X4_selection_fits_batch_witness :
  let s := Sample.state_at (Sample.score_run 8 (Sample.budget 5) 3) 5 in
  n_hits_per_read (pipeline s) * in_size (dev s) ≤ 8.
Proof.
  intros s.
  refine (proj1 (proj2
    (X4_selection_fits_batch 8 Sample.worst_score (Sample.budget 5)
       4 3 (seqZ 0 3) (enter (Sample.device 3)) 5 s _)) _).
  - vm_compute. reflexivity.
  - vm_compute. split; [reflexivity | discriminate].
Defined.

Lemma X5_budget_in_multi_hit_rounds_witness :
  n_ext (Run.final (extension_round 8 Sample.worst_score (Sample.budget 5)
                      (Sample.queued 3))) ≤ 5.
Proof.
  refine (proj2 (proj1
    (X5_budget_in_multi_hit_rounds 8 Sample.worst_score (Sample.budget 5) (Sample.queued 3))
    _ _ _ _)).
  - lia.
  - vm_compute. split; [reflexivity | discriminate].
  - vm_compute. split; discriminate.
  - vm_compute. reflexivity.
Defined.

(** In the first round of the sample run two of the three selected hits
    are candidates. *)
Lemma X6_opposite_candidates_witness :
  let s := Sample.state_at (Sample.score_run 2 (Sample.budget 1) 3) 14 in
  0 < opposite_queue_size (pipeline s) ≤ hits_queue_size (pipeline s).
Proof.
  intros s.
  refine (proj2 (proj2 (proj2
    (X6_opposite_candidates 2 Sample.worst_score (Sample.budget 1)
       4 3 (seqZ 0 3) (enter (Sample.device 3)) 14 s _)))).
  vm_compute. reflexivity.
Defined.

Lemma X7_packed_reads_witness :
  ∃ s1 s2 rest,
    Run.log (Sample.score_run 2 (Sample.budget 1) 3)
    = (Resize, enter (Sample.device 3)) :: (PackReads, s1) :: (SelectInit, s2) :: rest
    ∧ (∀ j r, (j < Z.to_nat 3)%nat → seqZ 0 3 !! j = Some r →
         in_queue (dev s2) !! j
         = Some (pack_read (top_seed (Sample.budget 1)) r))
    ∧ drop (Z.to_nat 3) (in_queue (dev s2)) = drop (Z.to_nat 3) (in_queue (dev s1)).
Proof.
  refine (X7_packed_reads 2 Sample.worst_score (Sample.budget 1)
            4 3 (seqZ 0 3) (enter (Sample.device 3)) _).
  vm_compute. lia.
Defined.
End scoring_more_runs.


(** ** More on the seeding passes *)

Section seeding_more.
Import Seeding.
Variable params : Params.
Variable needs_reseed : Z → Z → nat → bool.

Local Abbreviation passes := (seeding_passes needs_reseed).
Local Abbreviation max_passes := (Z.to_nat (UInt32.add (max_reseed params) 1)).

(** The queue a pass hands to the next one. *)
Local Abbreviation next_queue anchor seeding_pass q :=
  (swap (report_reseed (needs_reseed anchor seeding_pass) (clear_output q))).

Lemma seeding_passes_step remaining anchor seeding_pass q :
  in_size q ≠ 0 →
  passes (S remaining) anchor seeding_pass q
  = Run.after [(ClearOutput, q);
               (ClearDeques, clear_output q);
               (Map anchor seeding_pass, clear_output q);
               (Score anchor seeding_pass, clear_output q);
               (Swap, report_reseed (needs_reseed anchor seeding_pass) (clear_output q))]
      (passes remaining anchor (seeding_pass + 1) (next_queue anchor seeding_pass q)).
Proof.
  intros Hin. cbn [seeding_passes]. rewrite bool_decide_eq_false_2 by done.
  unfold seeding_pass_body.
  rewrite !bind_assoc, bind_call, bind_assoc, bind_emit, bind_assoc, bind_emit,
    bind_assoc, bind_call, bind_call.
  unfold Run.after. cbn [fst snd app]. reflexivity.
Qed.

Lemma seeding_passes_stop remaining anchor seeding_pass q :
  in_size q = 0 → passes remaining anchor seeding_pass q = (tt, q, []).
Proof. intros Hin. destruct remaining; cbn; [done |]. by rewrite bool_decide_eq_true_2. Qed.

(** The passes of one anchor: how many, in which order, and on what. *)
Lemma seeding_passes_launches remaining anchor seeding_pass q :
  ∃ k : nat,
    (k ≤ remaining)%nat
    ∧ (Run.log (passes remaining anchor seeding_pass q)).*1
      = seqZ seeding_pass (Z.of_nat k) ≫= pass_launches anchor
    ∧ (k = 0%nat ↔ in_size q = 0 ∨ remaining = 0%nat)
    ∧ ((k < remaining)%nat →
       in_size (Run.final (passes remaining anchor seeding_pass q)) = 0)
    ∧ Forall (λ entry, ∀ n, pass_size entry = Some n → n ≠ 0)
        (Run.log (passes remaining anchor seeding_pass q)).
Proof.
  revert seeding_pass q. induction remaining as [|remaining IH]; intros seeding_pass q.
  { exists 0%nat. cbn. repeat split; try done; try lia; by right. }
  destruct (decide (in_size q = 0)) as [Hz | Hnz].
  { exists 0%nat. rewrite seeding_passes_stop by done. cbn.
    repeat split; try done; try lia; by left. }
  rewrite seeding_passes_step by done.
  destruct (IH (seeding_pass + 1) (next_queue anchor seeding_pass q))
    as (k & Hk & Hlog & Hzero & Hearly & Hsize).
  exists (S k). rewrite log_after, final_after, fmap_app, Hlog.
  split; [lia |]. split; [| split; [| split]].
  - rewrite (seqZ_cons seeding_pass) by lia.
    replace (Z.pred (Z.of_nat (S k))) with (Z.of_nat k) by lia.
    reflexivity.
  - split; [done | intros [? | ?]; done].
  - intros Hlt. apply Hearly. lia.
  - apply Forall_app. split; [| exact Hsize].
    repeat (apply List.Forall_cons; [intros ? [= <-]; exact Hnz |]).
    apply List.Forall_nil.
Qed.

Lemma seed_anchor_run count anchor q :
  seed_anchor params needs_reseed count anchor q
  = Run.after [(StartFull anchor, q)]
      (passes max_passes anchor 0 (start_full count q)).
Proof. unfold seed_anchor. by rewrite bind_call. Qed.

Lemma seed_anchor_launches count anchor q :
  ∃ k : nat,
    (k ≤ max_passes)%nat
    ∧ (Run.log (seed_anchor params needs_reseed count anchor q)).*1
      = anchor_launches anchor k
    ∧ (k = 0%nat ↔ count = 0 ∨ max_passes = 0%nat)
    ∧ ((k < max_passes)%nat →
       in_size (Run.final (seed_anchor params needs_reseed count anchor q)) = 0)
    ∧ Forall (λ entry, ∀ n, pass_size entry = Some n → n ≠ 0)
        (Run.log (seed_anchor params needs_reseed count anchor q)).
Proof.
  rewrite seed_anchor_run, log_after, final_after.
  destruct (seeding_passes_launches max_passes anchor 0 (start_full count q))
    as (k & Hk & Hlog & Hzero & Hearly & Hsize).
  exists k. split; [done |]. split; [| split; [| split]]; try done.
  - cbn [fmap list_fmap app fst]. unfold anchor_launches. f_equal. exact Hlog.
  - apply List.Forall_cons; [by intros ? [=] | exact Hsize].
Qed.

(** X8. The seeding half of [best_approx] works on the two anchors in turn,
    each from a queue refilled with the reads [0 .. count): per anchor, the
    launches are the refill followed by a number of passes, each pass being
    the clearing of the output queue, the clearing of the hit deques, the
    mapping, the scoring and the swap, with pass numbers 0, 1, 2, ... The
    number of passes is at most [max_reseed + 1] in 32-bit arithmetic; it is
    zero exactly when the batch is empty or that bound is zero; and when the
    second anchor stops before the bound, the queue is left empty. *)
Theorem X8_seeding_launch_order count q :
  ∃ k0 k1 : nat,
    (Run.log (seed_and_extend params needs_reseed count q)).*1
    = anchor_launches 0 k0 ++ anchor_launches 1 k1
    ∧ (k0 ≤ max_passes)%nat ∧ (k1 ≤ max_passes)%nat
    ∧ (k0 = 0%nat ↔ count = 0 ∨ max_passes = 0%nat)
    ∧ (k1 = 0%nat ↔ count = 0 ∨ max_passes = 0%nat)
    ∧ ((k1 < max_passes)%nat →
       in_size (Run.final (seed_and_extend params needs_reseed count q)) = 0).
Proof.
  unfold seed_and_extend. rewrite bind_after, log_after, final_after.
  set (q1 := Run.final (seed_anchor params needs_reseed count 0 q)).
  destruct (seed_anchor_launches count 0 q) as (k0 & Hk0 & Hlog0 & Hz0 & _ & _).
  destruct (seed_anchor_launches count 1 q1) as (k1 & Hk1 & Hlog1 & Hz1 & He1 & _).
  exists k0, k1. rewrite fmap_app, Hlog0, Hlog1. done.
Qed.

(** X9. Neither the mapping nor the scoring is ever launched on an empty
    seed queue: the loop is left before. *)
Theorem X9_no_empty_seeding_pass count q i entry n :
  Run.log (seed_and_extend params needs_reseed count q) !! i = Some entry →
  pass_size entry = Some n →
  n ≠ 0.
Proof.
  intros Hi. revert n.
  assert (Forall (λ entry, ∀ n, pass_size entry = Some n → n ≠ 0)
            (Run.log (seed_and_extend params needs_reseed count q))) as Hall.
  { unfold seed_and_extend. rewrite bind_after, log_after. apply Forall_app.
    split; [by destruct (seed_anchor_launches count 0 q) as (? & ? & ? & ? & ? & ?) |].
    match goal with
    | |- context [seed_anchor _ _ _ 1 ?q1] =>
        by destruct (seed_anchor_launches count 1 q1) as (? & ? & ? & ? & ? & ?)
    end. }
  rewrite Forall_lookup in Hall. exact (Hall i entry Hi).
Qed.

(** X10. The bound of the seeding loop is computed in 32 bits:
    with [max_reseed] at its largest value, [max_reseed + 1] wraps to zero
    and no read is ever mapped or scored; with an empty batch the same
    happens for want of reads. *)
Theorem X10_no_seeding_pass count q :
  max_reseed params = 2 ^ 32 - 1 ∨ count = 0 →
  Run.log (seed_and_extend params needs_reseed count q)
  = [(StartFull 0, q); (StartFull 1, start_full count q)].
Proof.
  intros Hedge. unfold seed_and_extend.
  rewrite bind_after, !seed_anchor_run, log_after, final_after, log_after.
  destruct Hedge as [Hmax | Hcount].
  - rewrite Hmax. change (Z.to_nat (UInt32.add (2 ^ 32 - 1) 1)) with 0%nat.
    reflexivity.
  - rewrite !seeding_passes_stop by (by rewrite Hcount). reflexivity.
Qed.
End seeding_more.

(** Four reads and up to three passes: the first mapping is launched on
    the four of them. *)
Lemma X9_no_empty_seeding_pass_witness :
  Seeding.in_size (Seeding.clear_output (Seeding.start_full 4 Sample.empty_seed_queues))
  ≠ 0.
Proof.
  refine (X9_no_empty_seeding_pass (Sample.reseed 2) Sample.needs_reseed 4
            Sample.empty_seed_queues 3
            (Seeding.Map 0 0,
             Seeding.clear_output (Seeding.start_full 4 Sample.empty_seed_queues))
            _ _ _).
  - vm_compute. reflexivity.
  - reflexivity.
Defined.

(** With the largest [max_reseed] a batch of four reads is not seeded. *)
Lemma X10_no_seeding_pass_witness :
  Run.log (Seeding.seed_and_extend (Sample.reseed (2 ^ 32 - 1)) Sample.needs_reseed 4
             Sample.empty_seed_queues)
  = [(Seeding.StartFull 0, Sample.empty_seed_queues);
     (Seeding.StartFull 1, Seeding.start_full 4 Sample.empty_seed_queues)].
Proof.
  refine (X10_no_seeding_pass (Sample.reseed (2 ^ 32 - 1)) Sample.needs_reseed 4
            Sample.empty_seed_queues _).
  left. reflexivity.
Defined.


(** ** More on the second half of [best_approx] *)

Section finishing_more.
Import Registry Finishing.
Context {T : Type} `{!Kernels T}.
Variable params : Params.

(** *** The stages and their batches *)

(** An entry of a stage that works on rank [aln] of the registry [data]:
    it is no call of the output sink, and if it works on a registry at all,
    it is on that one and for that rank. *)
Local Abbreviation stage_entry aln data :=
  (λ entry : Event * Mem T,
     process_call entry.1 = None
     ∧ ∀ t, launch_target entry.1 = Some t → t = (aln, data)).

Local Abbreviation stage_shape aln data mate rank :=
  (λ L : Run.Log (Mem T) Event,
     ∃ l m', L = l ++ [(Process data mate rank, m')]
             ∧ Forall (stage_entry aln data) l).

(** Walking a stage entry by entry, the memory at each launch named. *)
Ltac mem_name_state :=
  try match goal with
      | |- context [Run.log (_ ?st)] =>
          tryif is_var st then fail else (let m := fresh "m" in set (m := st) in * )
      end.

Ltac stage_step :=
  first
    [ rewrite log_copy_if;
      match goal with
      | |- context [(CopyIf ?p ?d, ?m0) :: Run.log _] =>
          let r := fresh "r" in set (r := compaction p d _ m0) in *
      end;
      rewrite log_get, ?idx_view_copy_if; mem_name_state
    | rewrite log_call; mem_name_state
    | rewrite log_emit | rewrite log_call_last | rewrite log_emit_last
    | rewrite log_ret | rewrite log_modify_last
    | run_quiet | rewrite log_bind_assoc | run_branch ].

Ltac stage_walk :=
  intros L; repeat stage_step; intros <-;
  eexists _, _; (split; [snoc_split |]);
  repeat (apply List.Forall_cons; [split; [reflexivity | by intros ? [= <-]] |]);
  apply List.Forall_nil.

Lemma finish_best_anchor_shape count band m :
  ∀ L, Run.log (finish_best_anchor params count band m) = L →
       stage_shape 0%nat Anchor MATE_1 BEST_SCORE L.
Proof. unfold finish_best_anchor. stage_walk. Qed.

Lemma finish_best_opposite_shape count band m :
  ∀ L, Run.log (finish_best_opposite params count band m) = L →
       stage_shape 0%nat Opposite MATE_2 BEST_SCORE L.
Proof. unfold finish_best_opposite. stage_walk. Qed.

Lemma finish_second_anchor_shape count band m :
  ∀ L, Run.log (finish_second_anchor params count band m) = L →
       stage_shape 1%nat Anchor MATE_1 SECOND_BEST_SCORE L.
Proof. unfold finish_second_anchor. stage_walk. Qed.

Lemma finish_second_opposite_shape count band m :
  ∀ L, Run.log (finish_second_opposite params count band m) = L →
       stage_shape 1%nat Opposite MATE_2 SECOND_BEST_SCORE L.
Proof. unfold finish_second_opposite. stage_walk. Qed.

(** X11. The second half of [best_approx] is four stages in a row, each
    ending with its call of the output sink: up to the call for
    (mate 1, best) every kernel and compaction works on rank 0 of the anchor
    registry, from there to the call for (mate 2, best) on rank 0 of the
    opposite registry, then on rank 1 of the anchor registry and at last on
    rank 1 of the opposite registry; the batch of each call is made of the
    registry its stage worked on. *)
Theorem X11_finishing_stages count m :
  ∃ l1 m1 l2 m2 l3 m3 l4 m4,
    Run.log (finish_batch params count m)
    = l1 ++ (Process Anchor MATE_1 BEST_SCORE, m1)
      :: l2 ++ (Process Opposite MATE_2 BEST_SCORE, m2)
      :: l3 ++ (Process Anchor MATE_1 SECOND_BEST_SCORE, m3)
      :: l4 ++ [(Process Opposite MATE_2 SECOND_BEST_SCORE, m4)]
    ∧ Forall (stage_entry 0%nat Anchor) l1
    ∧ Forall (stage_entry 0%nat Opposite) l2
    ∧ Forall (stage_entry 1%nat Anchor) l3
    ∧ Forall (stage_entry 1%nat Opposite) l4.
Proof.
  destruct (finish_batch_log params count m) as (n1 & n2 & n3 & ->).
  set (band := band_length (max_dist params)).
  destruct (finish_best_anchor_shape count band m _ eq_refl) as (l1 & m1 & -> & H1).
  destruct (finish_best_opposite_shape count band n1 _ eq_refl) as (l2 & m2 & -> & H2).
  destruct (finish_second_anchor_shape count band n2 _ eq_refl) as (l3 & m3 & -> & H3).
  destruct (finish_second_opposite_shape count band n3 _ eq_refl) as (l4 & m4 & -> & H4).
  exists l1, m1, l2, m2, l3, m3, l4, m4.
  split; [| done]. by rewrite <- !app_assoc.
Qed.

(** *** The finishing kernels *)

Local Abbreviation finish_sound count :=
  (λ L : Run.Log (Mem T) Event,
     ∀ ev m', (ev, m') ∈ L → is_finish ev = true →
       ev = FinishAlignment 0 count None Anchor
       ∨ ∃ p data m_c, (CopyIf p data, m_c) ∈ L
           ∧ finish_launch p data (compaction p data count m_c) = Some ev).

Local Abbreviation finish_complete count :=
  (λ L : Run.Log (Mem T) Event,
     ∀ p data m_c ev, (CopyIf p data, m_c) ∈ L →
       compaction p data count m_c ≠ [] →
       finish_launch p data (compaction p data count m_c) = Some ev →
       ∃ m', (ev, m') ∈ L).

Ltac elem_of_here := repeat first [apply list_elem_of_here | apply list_elem_of_further].

Ltac elem_of_cases H :=
  repeat (apply elem_of_cons in H as [H | H]); [.. | by apply elem_of_nil in H].

Ltac finish_sound_case :=
  let ev := fresh "ev" in let m' := fresh "m'" in
  let Hin := fresh "Hin" in let Hfin := fresh "Hfin" in
  intros ev m' Hin Hfin; elem_of_cases Hin; injection Hin as -> ->;
  try discriminate Hfin;
  first
    [ left; reflexivity
    | right; exists HasSecond, Anchor; eexists; split; [elem_of_here | reflexivity]
    | right; exists IsAligned, Opposite; eexists; split; [elem_of_here | reflexivity]
    | right; exists HasSecond, Opposite; eexists; split; [elem_of_here | reflexivity] ].

Ltac finish_complete_case :=
  let Hin := fresh "Hin" in let Hne := fresh "Hne" in let Hlaunch := fresh "Hlaunch" in
  intros ? ? ? ? Hin Hne Hlaunch; elem_of_cases Hin;
  try discriminate Hin; injection Hin as -> -> ->;
  cbn [finish_launch] in Hlaunch; try discriminate Hlaunch;
  injection Hlaunch as <-;
  first
    [ solve [eexists; elem_of_here]
    | exfalso; apply Hne; apply nil_length_inv, Nat2Z.inj;
      match goal with
      | Hz : Z.of_nat (length _) = 0 |- _ => exact Hz
      end ].

Ltac finish_walk :=
  intros L; repeat stage_step; intros <-;
  (split; [finish_sound_case | finish_complete_case]).

Lemma finish_best_anchor_finish count band m :
  ∀ L, Run.log (finish_best_anchor params count band m) = L →
       finish_sound count L ∧ finish_complete count L.
Proof. unfold finish_best_anchor. finish_walk. Qed.

Lemma finish_best_opposite_finish count band m :
  ∀ L, Run.log (finish_best_opposite params count band m) = L →
       finish_sound count L ∧ finish_complete count L.
Proof. unfold finish_best_opposite. finish_walk. Qed.

Lemma finish_second_anchor_finish count band m :
  ∀ L, Run.log (finish_second_anchor params count band m) = L →
       finish_sound count L ∧ finish_complete count L.
Proof. unfold finish_second_anchor. finish_walk. Qed.

Lemma finish_second_opposite_finish count band m :
  ∀ L, Run.log (finish_second_opposite params count band m) = L →
       finish_sound count L ∧ finish_complete count L.
Proof. unfold finish_second_opposite. finish_walk. Qed.

Lemma finish_facts_app count (L1 L2 : Run.Log (Mem T) Event) :
  finish_sound count L1 ∧ finish_complete count L1 →
  finish_sound count L2 ∧ finish_complete count L2 →
  finish_sound count (L1 ++ L2) ∧ finish_complete count (L1 ++ L2).
Proof.
  intros [Hs1 Hc1] [Hs2 Hc2]. split.
  - intros ev m' Hin Hfin. apply elem_of_app in Hin as [Hin | Hin].
    + destruct (Hs1 ev m' Hin Hfin) as [-> | (p & data & m_c & Hc & Hl)]; [by left |].
      right. exists p, data, m_c. split; [| done]. apply elem_of_app. by left.
    + destruct (Hs2 ev m' Hin Hfin) as [-> | (p & data & m_c & Hc & Hl)]; [by left |].
      right. exists p, data, m_c. split; [| done]. apply elem_of_app. by right.
  - intros p data m_c ev Hin Hne Hl. apply elem_of_app in Hin as [Hin | Hin].
    + destruct (Hc1 p data m_c ev Hin Hne Hl) as [m' Hm']. exists m'.
      apply elem_of_app. by left.
    + destruct (Hc2 p data m_c ev Hin Hne Hl) as [m' Hm']. exists m'.
      apply elem_of_app. by right.
Qed.


(** *** The empty batch *)

Ltac empty_walk :=
  repeat stage_step;
  first
    [ reflexivity
    | exfalso;
      match goal with
      | Hn : Z.of_nat (length _) ≠ 0 |- _ => apply Hn; reflexivity
      end ].

Lemma finish_best_opposite_empty band m :
  (Run.log (finish_best_opposite params 0 band m)).*1
  = [ClearTranscripts; CopyIf IsPaired Opposite; CopyIf IsUnpaired Opposite;
     CopyIf IsAligned Opposite; Process Opposite MATE_2 BEST_SCORE].
Proof. unfold finish_best_opposite. empty_walk. Qed.

Lemma finish_second_anchor_empty band m :
  (Run.log (finish_second_anchor params 0 band m)).*1
  = [CopyIf HasSecond Anchor; Process Anchor MATE_1 SECOND_BEST_SCORE].
Proof. unfold finish_second_anchor. empty_walk. Qed.

Lemma finish_second_opposite_empty band m :
  (Run.log (finish_second_opposite params 0 band m)).*1
  = [ClearTranscripts; CopyIf HasSecondPaired Opposite;
     CopyIf HasSecondUnpaired Opposite; CopyIf HasSecond Opposite;
     Process Opposite MATE_2 SECOND_BEST_SCORE].
Proof. unfold finish_second_opposite. empty_walk. Qed.

(** X13. On an empty batch the first stage still launches its two kernels,
    on zero reads: they are the only launches of the second half of
    [best_approx] that no test guards. Every other kernel is skipped, the
    seven compactions are made and the four batches are handed to the
    output sink. *)
Theorem X13_empty_batch m :
  (Run.log (finish_batch params 0 m)).*1
  = [ClearTranscripts;
     BandedTraceback 0 0 None Anchor; FinishAlignment 0 0 None Anchor;
     Process Anchor MATE_1 BEST_SCORE;
     ClearTranscripts;
     CopyIf IsPaired Opposite; CopyIf IsUnpaired Opposite; CopyIf IsAligned Opposite;
     Process Opposite MATE_2 BEST_SCORE;
     CopyIf HasSecond Anchor;
     Process Anchor MATE_1 SECOND_BEST_SCORE;
     ClearTranscripts;
     CopyIf HasSecondPaired Opposite; CopyIf HasSecondUnpaired Opposite;
     CopyIf HasSecond Opposite;
     Process Opposite MATE_2 SECOND_BEST_SCORE].
Proof.
  destruct (finish_batch_log params 0 m) as (n1 & n2 & n3 & ->).
  rewrite !fmap_app, finish_best_opposite_empty, finish_second_anchor_empty,
    finish_second_opposite_empty.
  unfold finish_best_anchor. rewrite !log_call, log_emit_last. reflexivity.
Qed.

(** *** The transcript buffers, again *)

Lemma emitted_batches_after_clear (m : Mem T) (r : unit * Mem T * Run.Log (Mem T) Event) :
  emitted_batches (Run.log (Run.after [(ClearTranscripts, m)] r))
  = emitted_batches (Run.log r).
Proof. reflexivity. Qed.

(** X14. The first, the second and the fourth stage clear the transcript
    buffers before anything else, so what they compute, emit and leave
    behind does not depend on the transcripts they find: run on two
    memories that differ in the CIGAR and MD buffers only, each of them
    emits the same batch and ends in the same memory. *)
Theorem X14_stages_ignore_transcripts count band m m' :
  clear_transcripts m = clear_transcripts m' →
  (emitted_batches (Run.log (finish_best_anchor params count band m))
   = emitted_batches (Run.log (finish_best_anchor params count band m'))
   ∧ Run.final (finish_best_anchor params count band m)
     = Run.final (finish_best_anchor params count band m')) ∧
  (emitted_batches (Run.log (finish_best_opposite params count band m))
   = emitted_batches (Run.log (finish_best_opposite params count band m'))
   ∧ Run.final (finish_best_opposite params count band m)
     = Run.final (finish_best_opposite params count band m')) ∧
  (emitted_batches (Run.log (finish_second_opposite params count band m))
   = emitted_batches (Run.log (finish_second_opposite params count band m'))
   ∧ Run.final (finish_second_opposite params count band m)
     = Run.final (finish_second_opposite params count band m')).
Proof.
  intros Hsame.
  unfold finish_best_anchor, finish_best_opposite, finish_second_opposite.
  rewrite !(bind_call ClearTranscripts), !emitted_batches_after_clear, !final_after, Hsame.
  done.
Qed.
End finishing_more.

(** The opposite mates of the mixed sample batch are finished in the same
    way from a memory that still holds the transcripts of the first stage. *)
Lemma X14_stages_ignore_transcripts_witness :
  let stale :=
    Run.final (Finishing.finish_best_anchor (Sample.budget 1) 3 3 Sample.mixed_batch) in
  Finishing.emitted_batches
    (Run.log (Finishing.finish_best_opposite (Sample.budget 1) 3 3 Sample.mixed_batch))
  = Finishing.emitted_batches
      (Run.log (Finishing.finish_best_opposite (Sample.budget 1) 3 3 stale)).
Proof.
  intros stale.
  refine (proj1 (proj1 (proj2
    (X14_stages_ignore_transcripts (Sample.budget 1) 3 3 Sample.mixed_batch stale _)))).
  vm_compute. reflexivity.
Defined.
